(** * A shallow embedding of [blockchain.py]

    The node of [blockchain.py] keeps a chain of JSON blocks, a buffer of
    pending transactions and a set of peers.  This development embeds the
    [Blockchain] class and the handlers that Flask routes to, together with
    the parts of [hashlib], [json] and the string formatting they rest on,
    and states the properties of the ledger over that embedding.

    Conventions.
    - A Python [str] is a [string]; the character of code [n] stands for the
      code point [n] (so the model covers the code points below 256).
    - A Python [int] is a [Z]; a [float] is carried by the text that
      [float.__repr__] gives for it, which is all that hashing and formatting
      read of it.
    - A [dict] is an association list in insertion order.
    - The [set] of peers is the list of its elements without repetition;
      where the program reads the order in which a set is iterated, that
      order is a parameter ([replies], [listed]).
    - An exception is a value of [exn]; an operation of the class returns its
      outcome together with the state it leaves behind. *)

From Stdlib Require Import ZArith List String Ascii Bool Lia Arith.
From Stdlib Require Import Permutation DecimalString.
Import ListNotations.

#[local] Set Warnings "-register-all".

Local Open Scope string_scope.
Local Open Scope list_scope.
Local Open Scope Z_scope.

(** ** SHA-256 (FIPS 180-4), on 32-bit words held in [Z] *)

Module SHA256.

Definition mask32 : Z := 0xffffffff.

Definition add32 (x y : Z) : Z := Z.land (x + y) mask32.

Definition rotr (n x : Z) : Z :=
  Z.lor (Z.shiftr x n) (Z.land (Z.shiftl x (32 - n)) mask32).

Definition not32 (x : Z) : Z := Z.lxor x mask32.

Definition Ch (x y z : Z) : Z := Z.lxor (Z.land x y) (Z.land (not32 x) z).

Definition Maj (x y z : Z) : Z :=
  Z.lxor (Z.lxor (Z.land x y) (Z.land x z)) (Z.land y z).

Definition Sigma0 (x : Z) : Z := Z.lxor (Z.lxor (rotr 2 x) (rotr 13 x)) (rotr 22 x).
Definition Sigma1 (x : Z) : Z := Z.lxor (Z.lxor (rotr 6 x) (rotr 11 x)) (rotr 25 x).
Definition sigma0 (x : Z) : Z := Z.lxor (Z.lxor (rotr 7 x) (rotr 18 x)) (Z.shiftr x 3).
Definition sigma1 (x : Z) : Z := Z.lxor (Z.lxor (rotr 17 x) (rotr 19 x)) (Z.shiftr x 10).

(** The constants are fractional parts of roots of the first primes, as
    FIPS 180-4 defines them: the round constants are the first 32 bits of
    the fractional parts of the cube roots of the first 64 primes, the
    initial digest those of the square roots of the first 8. *)
Definition primes : list Z :=
  [ 2; 3; 5; 7; 11; 13; 17; 19; 23; 29; 31; 37; 41; 43; 47; 53;
    59; 61; 67; 71; 73; 79; 83; 89; 97; 101; 103; 107; 109; 113; 127; 131;
    137; 139; 149; 151; 157; 163; 167; 173; 179; 181; 191; 193; 197; 199;
    211; 223; 227; 229; 233; 239; 241; 251; 257; 263; 269; 271; 277; 281;
    283; 293; 307; 311 ].

(** The integer cube root of [n], bit by bit from bit [bits - 1] down. *)
Fixpoint cube_root (bits : nat) (n r : Z) : Z :=
  match bits with
  | O => r
  | S b =>
      let c := r + 2 ^ Z.of_nat b in
      if c * c * c <=? n then cube_root b n c else cube_root b n r
  end.

Definition cube_root_fraction (p : Z) : Z :=
  Z.land (cube_root 40 (p * 2 ^ 96) 0) mask32.

Definition square_root_fraction (p : Z) : Z :=
  Z.land (Z.sqrt (p * 2 ^ 64)) mask32.

Definition K : list Z := Eval vm_compute in map cube_root_fraction primes.

(** The eight working variables, also the running digest. *)
Record regs : Set := Regs
  { ra : Z; rb : Z; rc : Z; rd : Z; re : Z; rf : Z; rg : Z; rh : Z }.

Definition H0 : regs :=
  Eval vm_compute in
    Regs (square_root_fraction 2) (square_root_fraction 3)
         (square_root_fraction 5) (square_root_fraction 7)
         (square_root_fraction 11) (square_root_fraction 13)
         (square_root_fraction 17) (square_root_fraction 19).

(** Padding: a [0x80] byte, zero bytes up to 56 modulo 64, and the length of
    the message in bits as a 64-bit big-endian integer. *)
Definition be_bytes (n : nat) (x : Z) : list Z :=
  map (fun i => Z.land (Z.shiftr x (8 * Z.of_nat i)) 0xff) (rev (seq 0 n)).

Definition pad (msg : list Z) : list Z :=
  let len := Z.of_nat (List.length msg) in
  let zeros := Z.to_nat ((55 - len) mod 64) in
  msg ++ [0x80] ++ repeat 0 zeros ++ be_bytes 8 (8 * len).

Fixpoint be_word (bs : list Z) (acc : Z) : Z :=
  match bs with
  | [] => acc
  | b :: tl => be_word tl (Z.lor (Z.shiftl acc 8) b)
  end.

(** The sixteen words of one 64-byte block. *)
Fixpoint words (n : nat) (bs : list Z) : list Z :=
  match n with
  | O => []
  | S n' => be_word (firstn 4 bs) 0 :: words n' (skipn 4 bs)
  end.

(** The message schedule, kept newest word first: [r] holds W[t-1], W[t-2],
    ... and [schedule n r] adds the next [n] words. *)
Fixpoint schedule (n : nat) (r : list Z) : list Z :=
  match n with
  | O => r
  | S n' =>
      let w := add32 (add32 (sigma1 (nth 1 r 0)) (nth 6 r 0))
                     (add32 (sigma0 (nth 14 r 0)) (nth 15 r 0)) in
      schedule n' (w :: r)
  end.

Definition round (s : regs) (kw : Z * Z) : regs :=
  let (k, w) := kw in
  let t1 := add32 (add32 (add32 (rh s) (Sigma1 (re s))) (Ch (re s) (rf s) (rg s)))
                  (add32 k w) in
  let t2 := add32 (Sigma0 (ra s)) (Maj (ra s) (rb s) (rc s)) in
  Regs (add32 t1 t2) (ra s) (rb s) (rc s) (add32 (rd s) t1) (re s) (rf s) (rg s).

Definition compress (h : regs) (block : list Z) : regs :=
  let w := rev (schedule 48 (rev (words 16 block))) in
  let s := fold_left round (combine K w) h in
  Regs (add32 (ra h) (ra s)) (add32 (rb h) (rb s)) (add32 (rc h) (rc s))
       (add32 (rd h) (rd s)) (add32 (re h) (re s)) (add32 (rf h) (rf s))
       (add32 (rg h) (rg s)) (add32 (rh h) (rh s)).

Fixpoint blocks (n : nat) (bs : list Z) (h : regs) : regs :=
  match n with
  | O => h
  | S n' => blocks n' (skipn 64 bs) (compress h (firstn 64 bs))
  end.

Definition digest (msg : list Z) : regs :=
  let p := pad msg in
  blocks (List.length p / 64) p H0.

Definition hex_digit (d : Z) : ascii :=
  if d <? 10 then ascii_of_N (Z.to_N (48 + d)) else ascii_of_N (Z.to_N (87 + d)).

(** [n] lowercase hexadecimal digits of [x], most significant first. *)
Definition hex (n : nat) (x : Z) : string :=
  string_of_list_ascii
    (map (fun i => hex_digit (Z.land (Z.shiftr x (4 * Z.of_nat i)) 0xf)) (rev (seq 0 n))).

(** [hashlib.sha256(msg).hexdigest()] *)
Definition hexdigest (msg : list Z) : string :=
  let d := digest msg in
  (hex 8 (ra d) ++ hex 8 (rb d) ++ hex 8 (rc d) ++ hex 8 (rd d) ++
   hex 8 (re d) ++ hex 8 (rf d) ++ hex 8 (rg d) ++ hex 8 (rh d))%string.

End SHA256.

(** ** Python values

    The values that [json] reads and writes.  Blocks, transactions and the
    bodies of peers are such values. *)

Inductive json : Type :=
| JNull
| JBool (b : bool)
| JInt (n : Z)
| JFloat (r : string)
| JStr (s : string)
| JList (l : list json)
| JDict (d : list (string * json)).

(** Exceptions that the code of the node can raise. *)
Inductive exn : Set :=
| IndexError
| KeyError
| TypeError
| ValueError
| ConnectionError
| JSONDecodeError.

(** The outcome of an expression: a value, an exception, or [Unmodelled]
    where Python goes on with a value this model does not compute (the sum
    of a float and an integer). *)
Inductive result (A : Type) : Type :=
| Ok (a : A)
| Raise (e : exn)
| Unmodelled.

Arguments Ok {A} a.
Arguments Raise {A} e.
Arguments Unmodelled {A}.

Definition bind {A B : Type} (r : result A) (k : A -> result B) : result B :=
  match r with
  | Ok a => k a
  | Raise e => Raise e
  | Unmodelled => Unmodelled
  end.

Notation "x <- r ;; k" := (bind r (fun x => k))
  (at level 61, r at next level, right associativity).

(** ** Strings *)

Definition code (c : ascii) : Z := Z.of_N (N_of_ascii c).

Definition chr (n : Z) : ascii := ascii_of_N (Z.to_N n).

(** [str(n)] for an integer. *)
Definition str_of_int (n : Z) : string := NilZero.string_of_int (Z.to_int n).

Fixpoint join (sep : string) (l : list string) : string :=
  match l with
  | [] => EmptyString
  | [x] => x
  | x :: tl => (x ++ sep ++ join sep tl)%string
  end.

Fixpoint contains (c : ascii) (s : string) : bool :=
  match s with
  | EmptyString => false
  | String a tl => Ascii.eqb a c || contains c tl
  end.

(** [s.encode()]: UTF-8, one byte below 128 and two bytes from 128 to 255. *)
Fixpoint encode (s : string) : list Z :=
  match s with
  | EmptyString => []
  | String c tl =>
      let n := code c in
      if n <? 128 then n :: encode tl
      else Z.lor 0xc0 (Z.shiftr n 6) :: Z.lor 0x80 (Z.land n 0x3f) :: encode tl
  end.

(** *** [json.dumps(..., sort_keys=True)] *)

(** One character of a JSON string, [ensure_ascii] being on. *)
Definition json_escape (c : ascii) : string :=
  let n := code c in
  if n =? 34 then "\" ++ String c EmptyString
  else if n =? 92 then "\\"
  else if n =? 10 then "\n"
  else if n =? 13 then "\r"
  else if n =? 9 then "\t"
  else if n =? 8 then "\b"
  else if n =? 12 then "\f"
  else if (32 <=? n) && (n <=? 126) then String c EmptyString
  else "\u" ++ SHA256.hex 4 n.

Fixpoint json_escape_all (s : string) : string :=
  match s with
  | EmptyString => EmptyString
  | String c tl => (json_escape c ++ json_escape_all tl)%string
  end.

Definition json_string (s : string) : string :=
  (String (chr 34) EmptyString ++ json_escape_all s ++ String (chr 34) EmptyString)%string.

(** [json] writes the three floats that are not numbers under names of its
    own, and every other float as [float.__repr__] does. *)
Definition json_float (r : string) : string :=
  if String.eqb r "nan" then "NaN"
  else if String.eqb r "inf" then "Infinity"
  else if String.eqb r "-inf" then "-Infinity"
  else r.

(** The items of a dict in the order of their keys: a stable insertion
    sort, keys compared code point by code point. *)
Fixpoint insert_item {A : Type} (x : string * A) (l : list (string * A))
  : list (string * A) :=
  match l with
  | [] => [x]
  | y :: tl => if String.leb (fst x) (fst y) then x :: y :: tl
               else y :: insert_item x tl
  end.

Fixpoint sort_items {A : Type} (l : list (string * A)) : list (string * A) :=
  match l with
  | [] => []
  | x :: tl => insert_item x (sort_items tl)
  end.

Definition json_item (kv : string * string) : string :=
  (json_string (fst kv) ++ ": " ++ snd kv)%string.

Fixpoint dumps (j : json) : string :=
  match j with
  | JNull => "null"
  | JBool true => "true"
  | JBool false => "false"
  | JInt n => str_of_int n
  | JFloat r => json_float r
  | JStr s => json_string s
  | JList l => "[" ++ join ", " (map dumps l) ++ "]"
  | JDict d =>
      "{" ++ join ", " (map json_item
                         (sort_items (map (fun kv => (fst kv, dumps (snd kv))) d)))
          ++ "}"
  end%string.

(** *** [str] and [repr] *)

(** [c.isprintable()], for a code point above 127. *)
Definition printable_high (n : Z) : bool := (161 <=? n) && negb (n =? 173).

Definition repr_escape (quote : ascii) (c : ascii) : string :=
  let n := code c in
  if Ascii.eqb c quote || (n =? 92) then "\" ++ String c EmptyString
  else if n =? 9 then "\t"
  else if n =? 10 then "\n"
  else if n =? 13 then "\r"
  else if (n <? 32) || (n =? 127) then "\x" ++ SHA256.hex 2 n
  else if n <? 127 then String c EmptyString
  else if printable_high n then String c EmptyString
  else "\x" ++ SHA256.hex 2 n.

Fixpoint repr_escape_all (quote : ascii) (s : string) : string :=
  match s with
  | EmptyString => EmptyString
  | String c tl => (repr_escape quote c ++ repr_escape_all quote tl)%string
  end.

(** [repr(s)] for a string: single quotes, unless the string holds one and
    no double quote. *)
Definition repr_str (s : string) : string :=
  let quote := if contains (chr 39) s && negb (contains (chr 34) s)
               then chr 34 else chr 39 in
  (String quote EmptyString ++ repr_escape_all quote s ++ String quote EmptyString)%string.

Fixpoint repr (j : json) : string :=
  match j with
  | JNull => "None"
  | JBool true => "True"
  | JBool false => "False"
  | JInt n => str_of_int n
  | JFloat r => r
  | JStr s => repr_str s
  | JList l => "[" ++ join ", " (map repr l) ++ "]"
  | JDict d =>
      "{" ++ join ", " (map (fun kv => repr_str (fst kv) ++ ": " ++ repr (snd kv)) d)
          ++ "}"
  end%string.

(** [str(j)], which is what an f-string writes for [{j}]. *)
Definition str (j : json) : string :=
  match j with
  | JStr s => s
  | _ => repr j
  end.

(** ** Subscripts, truth and arithmetic of values *)

Fixpoint lookup (k : string) (d : list (string * json)) : option json :=
  match d with
  | [] => None
  | (k', v) :: tl => if String.eqb k' k then Some v else lookup k tl
  end.

(** [j[k]] for a string key [k]. *)
Definition getitem (j : json) (k : string) : result json :=
  match j with
  | JDict d => match lookup k d with
               | Some v => Ok v
               | None => Raise KeyError
               end
  | _ => Raise TypeError
  end.

(** [bool(j)] *)
Definition truthy (j : json) : bool :=
  match j with
  | JNull => false
  | JBool b => b
  | JInt n => negb (n =? 0)
  | JFloat r => negb (String.eqb r "0.0" || String.eqb r "-0.0")
  | JStr s => negb (String.eqb s EmptyString)
  | JList l => match l with [] => false | _ => true end
  | JDict d => match d with [] => false | _ => true end
  end.

(** [j + 1] *)
Definition add_one (j : json) : result json :=
  match j with
  | JInt n => Ok (JInt (n + 1))
  | JBool b => Ok (JInt ((if b then 1 else 0) + 1))
  | JFloat _ => Unmodelled
  | _ => Raise TypeError
  end.

(** [l[-1]] *)
Definition last_item (l : list json) : result json :=
  match rev l with
  | [] => Raise IndexError
  | b :: _ => Ok b
  end.

(** ** The [Blockchain] class *)

Record Blockchain : Type := mkBlockchain
  { chain : list json;
    current_transactions : list json;
    nodes : list string }.

(** [Blockchain.hash]: the SHA-256 digest of the block written by
    [json.dumps] with its keys sorted. *)
Definition hash (block : json) : string :=
  let block_string := encode (dumps block) in
  SHA256.hexdigest block_string.

(** [Blockchain.valid_proof] *)
Definition valid_proof (last_proof proof : json) : bool :=
  let guess := encode (str last_proof ++ str proof) in
  let guess_hash := SHA256.hexdigest guess in
  String.eqb (substring 0 4 guess_hash) "0000".

(** [Blockchain.proof_of_work].  The loop of the source has no bound; [fuel]
    bounds the number of candidates tried, and [None] says that the bound was
    reached before a proof was found. *)
Fixpoint proof_of_work_from (fuel : nat) (last_proof : json) (proof : Z)
  : option Z :=
  match fuel with
  | O => None
  | S fuel' =>
      if valid_proof last_proof (JInt proof) then Some proof
      else proof_of_work_from fuel' last_proof (proof + 1)
  end.

Definition proof_of_work (fuel : nat) (last_proof : json) : option Z :=
  proof_of_work_from fuel last_proof 0.

(** [v != h] for a string [h] is false exactly when [v] is that string. *)
Definition is_str (v : json) (h : string) : bool :=
  match v with
  | JStr s => String.eqb s h
  | _ => false
  end.

(** [Blockchain.valid_chain].  [valid_chain_from last_block rest] is the
    loop, [rest] being the blocks from [current_index] on. *)
Fixpoint valid_chain_from (last_block : json) (rest : list json) : result bool :=
  match rest with
  | [] => Ok true
  | block :: rest' =>
      previous_hash <- getitem block "previous_hash" ;;
      if negb (is_str previous_hash (hash last_block)) then Ok false
      else
        last_proof <- getitem last_block "proof" ;;
        proof <- getitem block "proof" ;;
        if negb (valid_proof last_proof proof) then Ok false
        else valid_chain_from block rest'
  end.

Definition valid_chain (chain : list json) : result bool :=
  match chain with
  | [] => Raise IndexError
  | last_block :: rest => valid_chain_from last_block rest
  end.

(** [Blockchain.new_block].  [now] is what [time()] returns. *)
Definition new_block (now : string) (proof previous_hash : json)
  (self : Blockchain) : result json * Blockchain :=
  let link :=
    if truthy previous_hash then Ok previous_hash
    else last_block <- last_item (chain self) ;; Ok (JStr (hash last_block)) in
  match link with
  | Ok link =>
      let block :=
        JDict [ ("index", JInt (Z.of_nat (List.length (chain self)) + 1));
                ("timestamp", JFloat now);
                ("transactions", JList (current_transactions self));
                ("proof", proof);
                ("previous_hash", link) ] in
      (Ok block,
       {| chain := chain self ++ [block];
          current_transactions := [];
          nodes := nodes self |})
  | Raise e => (Raise e, self)
  | Unmodelled => (Unmodelled, self)
  end.

(** [Blockchain.__init__] *)
Definition init (now : string) : Blockchain :=
  snd (new_block now (JInt 100) (JStr "1")
         {| chain := []; current_transactions := []; nodes := [] |}).

(** [Blockchain.new_transaction] *)
Definition new_transaction (sender recipient amount : json)
  (self : Blockchain) : result json * Blockchain :=
  let self' :=
    {| chain := chain self;
       current_transactions :=
         current_transactions self ++
           [JDict [ ("sender", sender); ("recipient", recipient);
                    ("amount", amount) ]];
       nodes := nodes self |} in
  (last_block <- last_item (chain self') ;;
   index <- getitem last_block "index" ;;
   add_one index,
   self').

(** [Blockchain.register_node].  [netloc] is [urlparse(address).netloc], or
    [None] where [urlparse] raises. *)
Definition register_node (netloc : option string) (self : Blockchain)
  : result unit * Blockchain :=
  match netloc with
  | None => (Raise ValueError, self)
  | Some n =>
      (Ok tt,
       {| chain := chain self;
          current_transactions := current_transactions self;
          nodes := if in_dec string_dec n (nodes self) then nodes self
                   else nodes self ++ [n] |})
  end.

(** What [requests.get] gives for one peer: an exception, or a response
    with a status and a body.  The body is [None] where it is not JSON;
    otherwise it is the object of the [/chain] endpoint, an integer [length]
    and a list [chain] whose elements are any values. *)
Record peer_body : Type := mkBody
  { body_length : Z;
    body_chain : list json }.

Inductive reply : Type :=
| Unreachable
| Response (status_code : Z) (body : option peer_body).

(** The loop of [resolve_conflicts] over the replies of the peers, in the
    order in which the set of nodes is iterated. *)
Fixpoint resolve_loop (replies : list reply) (max_length : Z)
  (new_chain : option (list json)) : result (option (list json)) :=
  match replies with
  | [] => Ok new_chain
  | Unreachable :: _ => Raise ConnectionError
  | Response status_code body :: rest =>
      if status_code =? 200 then
        match body with
        | None => Raise JSONDecodeError
        | Some b =>
            if body_length b >? max_length then
              valid <- valid_chain (body_chain b) ;;
              if valid then resolve_loop rest (body_length b) (Some (body_chain b))
              else resolve_loop rest max_length new_chain
            else resolve_loop rest max_length new_chain
        end
      else resolve_loop rest max_length new_chain
  end.

(** [Blockchain.resolve_conflicts] *)
Definition resolve_conflicts (replies : list reply) (self : Blockchain)
  : result bool * Blockchain :=
  match resolve_loop replies (Z.of_nat (List.length (chain self))) None with
  | Ok (Some ((_ :: _) as new_chain)) =>
      (Ok true,
       {| chain := new_chain;
          current_transactions := current_transactions self;
          nodes := nodes self |})
  | Ok _ => (Ok false, self)
  | Raise e => (Raise e, self)
  | Unmodelled => (Unmodelled, self)
  end.

(** The response that the [/chain] endpoint of a node builds: the chain as
    the node holds it, and its length.  [jsonify] then writes it with the
    keys of every dict sorted, so a peer reads [App.jsonified] of it; the two
    differ in the order of the keys only. *)
Definition full_chain (self : Blockchain) : reply :=
  Response 200 (Some {| body_length := Z.of_nat (List.length (chain self));
                        body_chain := chain self |}).

(** The [/mine] endpoint.  [None] says that the search for a proof did not
    end within [fuel] candidates. *)
Definition mine (fuel : nat) (node_identifier now : string)
  (blockchain : Blockchain) : option (result json * Blockchain) :=
  match (last_block <- last_item (chain blockchain) ;;
         getitem last_block "proof") with
  | Ok last_proof =>
      match proof_of_work fuel last_proof with
      | None => None
      | Some proof =>
          match new_transaction (JStr "0") (JStr node_identifier) (JInt 1)
                  blockchain with
          | (Ok _, b1) =>
              match new_block now (JInt proof) JNull b1 with
              | (Ok block, b2) =>
                  (Some
                     (index <- getitem block "index" ;;
                      transactions <- getitem block "transactions" ;;
                      proof' <- getitem block "proof" ;;
                      previous_hash <- getitem block "previous_hash" ;;
                      Ok (JDict [ ("message", JStr "New Block Forged");
                                  ("index", index);
                                  ("transactions", transactions);
                                  ("proof", proof');
                                  ("previous_hash", previous_hash) ]),
                      b2))
              | (Raise e, b2) => Some (Raise e, b2)
              | (Unmodelled, b2) => Some (Unmodelled, b2)
              end
          | (Raise e, b1) => Some (Raise e, b1)
          | (Unmodelled, b1) => Some (Unmodelled, b1)
          end
      end
  | Raise e => Some (Raise e, blockchain)
  | Unmodelled => Some (Unmodelled, blockchain)
  end.

(** ** The node as a state machine

    The operations a client of the class, or of the HTTP surface, can run.
    A call that raises still leaves a state behind; [Mine] has no next state
    when its search does not end within its fuel, and [ResolveConflicts]
    takes one reply for each registered node. *)

Inductive op : Type :=
| NewTransaction (sender recipient amount : json)
| NewBlock (now : string) (proof previous_hash : json)
| RegisterNode (netloc : option string)
| ResolveConflicts (replies : list reply)
| Mine (fuel : nat) (node_identifier now : string).

Definition run (o : op) (self : Blockchain) : option Blockchain :=
  match o with
  | NewTransaction sender recipient amount =>
      Some (snd (new_transaction sender recipient amount self))
  | NewBlock now proof previous_hash =>
      Some (snd (new_block now proof previous_hash self))
  | RegisterNode netloc => Some (snd (register_node netloc self))
  | ResolveConflicts replies =>
      if Nat.eqb (List.length replies) (List.length (nodes self))
      then Some (snd (resolve_conflicts replies self))
      else None
  | Mine fuel node_identifier now =>
      option_map snd (mine fuel node_identifier now self)
  end.

Fixpoint run_all (ops : list op) (self : Blockchain) : option Blockchain :=
  match ops with
  | [] => Some self
  | o :: rest =>
      match run o self with
      | Some self' => run_all rest self'
      | None => None
      end
  end.

Definition reachable (self : Blockchain) : Prop :=
  exists now ops, run_all ops (init now) = Some self.

(** ** Properties of chains and blocks *)

(** The link between a block and the one before it: the hash of the
    predecessor is recorded, and the proof answers the predecessor's. *)
Definition linked (prev block : json) : bool :=
  match getitem block "previous_hash", getitem prev "proof",
        getitem block "proof" with
  | Ok previous_hash, Ok last_proof, Ok proof =>
      is_str previous_hash (hash prev) && valid_proof last_proof proof
  | _, _, _ => false
  end.

Fixpoint invariant_from (prev : json) (rest : list json) : bool :=
  match rest with
  | [] => true
  | block :: rest' => linked prev block && invariant_from block rest'
  end.

(** The invariant of the chain: every block after the first is linked to
    its predecessor. *)
Definition invariant (chain : list json) : bool :=
  match chain with
  | [] => true
  | first :: rest => invariant_from first rest
  end.

(** The block that [new_block] builds, [link] being the value of its
    [previous_hash] field. *)
Definition sealed_block (now : string) (proof link : json)
  (self : Blockchain) : json :=
  JDict [ ("index", JInt (Z.of_nat (List.length (chain self)) + 1));
          ("timestamp", JFloat now);
          ("transactions", JList (current_transactions self));
          ("proof", proof);
          ("previous_hash", link) ].

(** The state after a block was appended and the buffer emptied. *)
Definition sealed (block : json) (self : Blockchain) : Blockchain :=
  {| chain := chain self ++ [block];
     current_transactions := [];
     nodes := nodes self |}.

(** The state after the chain of a peer replaced the chain of the node. *)
Definition replaced (new_chain : list json) (self : Blockchain) : Blockchain :=
  {| chain := new_chain;
     current_transactions := current_transactions self;
     nodes := nodes self |}.

(** A direct call of [new_block] that seals by the rule: the proof answers
    the proof of the last block, and the link is left to [new_block] or is
    the hash of the last block. *)
Definition seals_by_rule (o : op) (self : Blockchain) : bool :=
  match o with
  | NewBlock _ proof previous_hash =>
      match last_item (chain self) with
      | Ok last_block =>
          match getitem last_block "proof" with
          | Ok last_proof =>
              valid_proof last_proof proof &&
              (negb (truthy previous_hash) ||
               is_str previous_hash (hash last_block))
          | _ => false
          end
      | _ => false
      end
  | _ => true
  end.

Fixpoint by_rule (ops : list op) (self : Blockchain) : bool :=
  match ops with
  | [] => true
  | o :: rest =>
      seals_by_rule o self &&
      match run o self with
      | Some self' => by_rule rest self'
      | None => true
      end
  end.

(** [d[k] = v] on a dict: the value of an existing key is replaced in
    place, a new key goes to the end. *)
Fixpoint setitem (k : string) (v : json) (d : list (string * json))
  : list (string * json) :=
  match d with
  | [] => [(k, v)]
  | (k', v') :: tl =>
      if String.eqb k' k then (k', v) :: tl else (k', v') :: setitem k v tl
  end.

(** Two values with the same content: equal, but for the order in which the
    keys of their dicts were inserted.  The keys of a dict are distinct. *)
Inductive same_fields : json -> json -> Prop :=
| same_null : same_fields JNull JNull
| same_bool b : same_fields (JBool b) (JBool b)
| same_int n : same_fields (JInt n) (JInt n)
| same_float r : same_fields (JFloat r) (JFloat r)
| same_str s : same_fields (JStr s) (JStr s)
| same_list l1 l2 :
    Forall2 same_fields l1 l2 -> same_fields (JList l1) (JList l2)
| same_dict d1 d2 :
    NoDup (map fst d1) -> NoDup (map fst d2) ->
    (forall k v1, lookup k d1 = Some v1 ->
                  exists v2, lookup k d2 = Some v2 /\ same_fields v1 v2) ->
    (forall k v2, lookup k d2 = Some v2 ->
                  exists v1, lookup k d1 = Some v1 /\ same_fields v1 v2) ->
    same_fields (JDict d1) (JDict d2).

(** A value that Python can hold: the keys of each dict are distinct. *)
Fixpoint distinct (keys : list string) : bool :=
  match keys with
  | [] => true
  | k :: tl => negb (existsb (String.eqb k) tl) && distinct tl
  end.

Fixpoint well_formed (j : json) : bool :=
  match j with
  | JList l => forallb well_formed l
  | JDict d =>
      distinct (map fst d) && forallb (fun kv => well_formed (snd kv)) d
  | _ => true
  end.

(** An operation that does not take the chain of a peer. *)
Definition local (o : op) : bool :=
  match o with
  | ResolveConflicts _ => false
  | _ => true
  end.

(** The last block's index field is the length of the chain. *)
Definition index_is_length (chain : list json) : Prop :=
  exists last_block,
    last_item chain = Ok last_block /\
    getitem last_block "index" = Ok (JInt (Z.of_nat (List.length chain))).

(** ** Some nodes and chains *)

Module Scenario.

(** A node after start-up, and after one more block with the proof that
    answers the genesis proof [100]. *)
Definition node1 : Blockchain := init "1700000000.25".

Definition genesis_fields : list (string * json) :=
  [ ("index", JInt 1); ("timestamp", JFloat "1700000000.25");
    ("transactions", JList []); ("proof", JInt 100);
    ("previous_hash", JStr "1") ].

Definition genesis : json := JDict genesis_fields.

Definition alice_pays_bob : json :=
  JDict [ ("sender", JStr "A"); ("recipient", JStr "B"); ("amount", JInt 10) ].

Definition node2 : Blockchain :=
  snd (new_block "1700000090.5" (JInt 35293) JNull
         (snd (new_transaction (JStr "A") (JStr "B") (JInt 10) node1))).

(** The fields of the second block of [node2]. *)
Definition second_fields : list (string * json) :=
  [ ("index", JInt 2); ("timestamp", JFloat "1700000090.5");
    ("transactions", JList [alice_pays_bob]); ("proof", JInt 35293);
    ("previous_hash", JStr (hash genesis)) ].

Definition peer : option string := Some "192.168.0.5:5000".

(** The same nodes, with one peer registered. *)
Definition node1_with_peer : Blockchain := snd (register_node peer node1).

Definition node2_with_peer : Blockchain := snd (register_node peer node2).

(** A chain of a peer whose first block is not a genesis block and whose
    index fields are not the positions of the blocks. *)
Definition odd_first : json :=
  JDict [ ("index", JInt 10); ("timestamp", JFloat "12.5");
          ("transactions", JList [alice_pays_bob]); ("proof", JInt 31008);
          ("previous_hash", JStr "no predecessor") ].

Definition odd_second : json :=
  JDict [ ("index", JInt 7); ("timestamp", JFloat "13.0");
          ("transactions", JList []); ("proof", JInt 2699);
          ("previous_hash", JStr (hash odd_first)) ].

Definition odd_chain : list json := [odd_first; odd_second].

(** A run of the node: a transaction, a peer, the adoption of the chain
    above from that peer, a block mined on top of it and a block sealed by
    hand with a proof that answers the mined one. *)
Definition session : list op :=
  [ NewTransaction (JStr "A") (JStr "B") (JInt 10);
    RegisterNode peer;
    ResolveConflicts
      [Response 200 (Some {| body_length := 2; body_chain := odd_chain |})];
    Mine 40 "9d4f0c2e6a1b4c7d8e3f5a6b7c8d9e0f" "1700000200.0";
    NewBlock "1700000300.0" (JInt 9926) JNull ].

(** A chain of five blocks whose third block does not record the hash of
    the second. *)
Definition broken_chain : list json :=
  chain node2 ++
  [ JDict [ ("index", JInt 3); ("timestamp", JFloat "1700000100.0");
            ("transactions", JList []); ("proof", JInt 35089);
            ("previous_hash", JStr "0000") ];
    JDict [ ("index", JInt 4); ("timestamp", JFloat "1700000110.0");
            ("transactions", JList []); ("proof", JInt 0);
            ("previous_hash", JStr "0000") ];
    JDict [ ("index", JInt 5); ("timestamp", JFloat "1700000120.0");
            ("transactions", JList []); ("proof", JInt 0);
            ("previous_hash", JStr "0000") ] ].

End Scenario.

(** ** The HTTP handlers

    The functions that Flask routes to, from the decoded body of the
    request to the response and the state of the node.  [mine] and
    [full_chain] are above. *)

Module App.

(** The body of a response: a text, or what [jsonify] makes of a value. *)
Inductive body : Type :=
| Text (s : string)
| Json (j : json).

(** What the client reads back from the text that [jsonify] writes for a
    value: the same value, the items of every dict in the order of their
    keys ([jsonify] sorts the keys, as [json.dumps] does for [hash]). *)
Fixpoint jsonify (j : json) : json :=
  match j with
  | JList l => JList (map jsonify l)
  | JDict d =>
      JDict (sort_items (map (fun kv => (fst kv, jsonify (snd kv))) d))
  | _ => j
  end.

(** A response of the [/chain] endpoint as the peer that asked for it
    reads it. *)
Definition jsonified (r : reply) : reply :=
  match r with
  | Response status_code (Some b) =>
      Response status_code
        (Some {| body_length := body_length b;
                 body_chain := map jsonify (body_chain b) |})
  | _ => r
  end.

(** What a handler does: it returns a body and a status, or an exception
    leaves it.  [AttributeError] comes from calling [get] on a value that
    has no such method; [Outside] stands for a run that this model does not
    follow. *)
Inductive outcome : Type :=
| Sent (b : body) (status : Z)
| Uncaught (e : exn)
| AttributeError
| Outside.

Definition of_result (r : result (body * Z)) : outcome :=
  match r with
  | Ok (b, status) => Sent b status
  | Raise e => Uncaught e
  | Unmodelled => Outside
  end.

(** [k in s] for two strings. *)
Fixpoint occurs (k s : string) : bool :=
  String.prefix k s ||
  match s with
  | EmptyString => false
  | String _ tl => occurs k tl
  end.

(** [k in values] for a string [k]: a key of a dict, an element of a
    list, a part of a string. *)
Definition contains_key (k : string) (values : json) : result bool :=
  match values with
  | JDict d => Ok (match lookup k d with Some _ => true | None => false end)
  | JList l => Ok (existsb (fun x => is_str x k) l)
  | JStr s => Ok (occurs k s)
  | _ => Raise TypeError
  end.

(** [all(k in values for k in required)] *)
Fixpoint all_in (required : list string) (values : json) : result bool :=
  match required with
  | [] => Ok true
  | k :: rest =>
      present <- contains_key k values ;;
      if present then all_in rest values else Ok false
  end.

(** The transaction that a call of [new_transaction] puts in the buffer. *)
Definition transaction (sender recipient amount : json) : json :=
  JDict [ ("sender", sender); ("recipient", recipient); ("amount", amount) ].

Definition queued (tx : json) (self : Blockchain) : Blockchain :=
  {| chain := chain self;
     current_transactions := current_transactions self ++ [tx];
     nodes := nodes self |}.

(** The handler of [POST /transactions/new]; [values] is what
    [request.get_json()] returns. *)
Definition new_transaction (values : json) (blockchain : Blockchain)
  : outcome * Blockchain :=
  match all_in ["sender"; "recipient"; "amount"] values with
  | Ok false => (Sent (Text "Missing values") 400, blockchain)
  | Ok true =>
      match (sender <- getitem values "sender" ;;
             recipient <- getitem values "recipient" ;;
             amount <- getitem values "amount" ;;
             Ok (sender, recipient, amount)) with
      | Ok (sender, recipient, amount) =>
          let (index, blockchain') :=
            new_transaction sender recipient amount blockchain in
          (of_result
             (index <- index ;;
              Ok (Json (JDict [ ("message",
                                 JStr ("Transaction will be added to Block "
                                       ++ str index)) ]),
                  201)),
           blockchain')
      | Raise e => (Uncaught e, blockchain)
      | Unmodelled => (Outside, blockchain)
      end
  | Raise e => (Uncaught e, blockchain)
  | Unmodelled => (Outside, blockchain)
  end.

(** The elements that [for node in nodes] visits. *)
Definition elements (nodes : json) : result (list json) :=
  match nodes with
  | JList l => Ok l
  | JStr s => Ok (map (fun c => JStr (String c EmptyString))
                      (list_ascii_of_string s))
  | JDict d => Ok (map (fun kv => JStr (fst kv)) d)
  | _ => Raise TypeError
  end.

Section Urlparse.

(** [netloc address] is [urlparse(address).netloc] for a string, [None]
    where [urlparse] raises. *)
Variable netloc : string -> option string.

(** [listed nodes] is [list(nodes)]: the elements of the set in the order
    in which Python iterates it, an order that the program does not fix. *)
Variable listed : list string -> list string.

(** The loop of [register_nodes]: [None] when every node is registered,
    or what stopped the loop.  What [urlparse] does with a node that is not
    a string is left outside. *)
Fixpoint register_all (nodes : list json) (blockchain : Blockchain)
  : option outcome * Blockchain :=
  match nodes with
  | [] => (None, blockchain)
  | JStr address :: rest =>
      match register_node (netloc address) blockchain with
      | (Ok _, blockchain') => register_all rest blockchain'
      | (Raise e, blockchain') => (Some (Uncaught e), blockchain')
      | (Unmodelled, blockchain') => (Some Outside, blockchain')
      end
  | _ :: _ => (Some Outside, blockchain)
  end.

(** The handler of [POST /nodes/register]. *)
Definition register_nodes (values : json) (blockchain : Blockchain)
  : outcome * Blockchain :=
  match values with
  | JDict d =>
      match lookup "nodes" d with
      | None | Some JNull =>
          (Sent (Text "Error: Please supply a valid list of nodes") 400,
           blockchain)
      | Some node_list =>
          match elements node_list with
          | Ok l =>
              match register_all l blockchain with
              | (None, blockchain') =>
                  (Sent (Json (JDict [ ("message",
                                        JStr "New nodes have been added");
                                       ("total_nodes",
                                        JList (map JStr
                                                 (listed (nodes blockchain')))) ]))
                        201,
                   blockchain')
              | (Some failed, blockchain') => (failed, blockchain')
              end
          | Raise e => (Uncaught e, blockchain)
          | Unmodelled => (Outside, blockchain)
          end
      end
  | _ => (AttributeError, blockchain)
  end.

End Urlparse.

(** The handler of [GET /nodes/resolve]; [replies] is what the peers
    answer. *)
Definition consensus (replies : list reply) (blockchain : Blockchain)
  : outcome * Blockchain :=
  let (replaced, blockchain') := resolve_conflicts replies blockchain in
  (of_result
     (replaced <- replaced ;;
      Ok (Json (if replaced : bool
                then JDict [ ("message", JStr "Our chain was replaced");
                             ("new_chain", JList (chain blockchain')) ]
                else JDict [ ("message", JStr "Our chain is authoritative");
                             ("chain", JList (chain blockchain')) ]),
          200)),
   blockchain').

End App.

(** ** More properties of chains and states *)

(** The transaction with which [mine] rewards the node. *)
Definition reward (node_identifier : string) : json :=
  App.transaction (JStr "0") (JStr node_identifier) (JInt 1).

(** The index field of each block is its position, counted from 1. *)
Definition indexed (chain : list json) : Prop :=
  forall i block,
    nth_error chain i = Some block ->
    getitem block "index" = Ok (JInt (Z.of_nat i + 1)).

(** The state after the addresses were registered one after the other. *)
Definition registered (netloc : string -> option string)
  (addresses : list string) (self : Blockchain) : Blockchain :=
  fold_left (fun b address => snd (register_node (netloc address) b))
    addresses self.

(** A character of a hexadecimal digest. *)
Definition hex_char (c : ascii) : Prop :=
  In c (list_ascii_of_string "0123456789abcdef").

(** Keys in the order in which [sort_items] leaves them. *)
Fixpoint ascending (keys : list string) : bool :=
  match keys with
  | k :: tl =>
      match tl with
      | k' :: _ => String.leb k k'
      | [] => true
      end && ascending tl
  | [] => true
  end.

(** A block whose proof reads the same after [jsonify]: an integer, a
    string, any value whose dicts have their keys in order. *)
Definition wire_proof (block : json) : Prop :=
  forall proof, getitem block "proof" = Ok proof -> App.jsonify proof = proof.

(** An operation that brings no block into the chain but those the node
    mines: neither a direct call of [new_block] nor the chain of a peer. *)
Definition own_work (o : op) : bool :=
  match o with
  | NewBlock _ _ _ | ResolveConflicts _ => false
  | _ => true
  end.

(** ** More nodes and chains *)

Module Cases.

(** A valid chain of two blocks whose last block has a proof and a previous
    hash and nothing else, and the node that took it from its peer. *)
Definition bare_second : json :=
  JDict [ ("proof", JInt 2699);
          ("previous_hash", JStr (hash Scenario.odd_first)) ].

Definition bare_chain : list json := [Scenario.odd_first; bare_second].

Definition bare_node : Blockchain :=
  replaced bare_chain Scenario.node1_with_peer.

Definition miner : string := "9d4f0c2e6a1b4c7d8e3f5a6b7c8d9e0f".

(** Three peers: one whose chain is broken, and two with valid chains of
    two blocks, of which the first in the order of iteration is kept. *)
Definition three_replies : list reply :=
  [ Response 200 (Some {| body_length := 5;
                          body_chain := Scenario.broken_chain |});
    Response 200 (Some {| body_length := 2;
                          body_chain := Scenario.odd_chain |});
    full_chain Scenario.node2 ].

(** A proof that is a dict.  Written with its keys in the order [b], [a]
    it answers the genesis proof; [dict_node] has sealed a block with it. *)
Definition dict_proof : json := JDict [ ("b", JInt 56646); ("a", JInt 0) ].

Definition dict_node : Blockchain :=
  snd (new_block "1700000090.5" dict_proof JNull Scenario.node1).

(** What [urlparse] gives for the addresses used below: the host and port
    of a well-formed address, and a [ValueError] for an address that opens a
    bracket and does not close it. *)
Definition netloc (address : string) : option string :=
  if String.eqb address "http://192.168.0.5:5000" then Some "192.168.0.5:5000"
  else if String.eqb address "http://10.0.0.7:5001" then Some "10.0.0.7:5001"
  else if String.eqb address "http://[" then None
  else Some EmptyString.

End Cases.

(** * Properties *)

(** ** The digest on known inputs

    The first and last round constants, the initial digest, and the digests
    of the messages of FIPS 180-4, appendix B, and of the empty message. *)

Lemma sha256_constants :
  nth 0 SHA256.K 0 = 0x428a2f98 /\ nth 63 SHA256.K 0 = 0xc67178f2 /\
  List.length SHA256.K = 64%nat /\
  SHA256.H0 = SHA256.Regs 0x6a09e667 0xbb67ae85 0x3c6ef372 0xa54ff53a
                          0x510e527f 0x9b05688c 0x1f83d9ab 0x5be0cd19.
Proof. repeat apply conj; reflexivity. Qed.

Lemma sha256_known_digests :
  SHA256.hexdigest (encode "abc")
  = "ba7816bf8f01cfea414140de5dae2223b00361a396177a9cb410ff61f20015ad" /\
  SHA256.hexdigest
    (encode "abcdbcdecdefdefgefghfghighijhijkijkljklmklmnlmnomnopnopq")
  = "248d6a61d20638b8e5c026930c3e6039a33ce45964ff2167f6ecedd419db06c1" /\
  SHA256.hexdigest (encode EmptyString)
  = "e3b0c44298fc1c149afbf4c8996fb92427ae41e4649b934ca495991b7852b855".
Proof. repeat apply conj; vm_compute; reflexivity. Qed.

(** The digest is computed on closed terms only, by [vm_compute]. *)
Opaque SHA256.hexdigest.


(** ** Induction on values *)

Section JsonInduction.

Variable P : json -> Prop.
Hypothesis P_null : P JNull.
Hypothesis P_bool : forall b, P (JBool b).
Hypothesis P_int : forall n, P (JInt n).
Hypothesis P_float : forall r, P (JFloat r).
Hypothesis P_str : forall s, P (JStr s).
Hypothesis P_list : forall l, Forall P l -> P (JList l).
Hypothesis P_dict : forall d, Forall (fun kv => P (snd kv)) d -> P (JDict d).

Fixpoint json_induction (j : json) : P j :=
  match j with
  | JNull => P_null
  | JBool b => P_bool b
  | JInt n => P_int n
  | JFloat r => P_float r
  | JStr s => P_str s
  | JList l =>
      P_list l
        ((fix all (l : list json) : Forall P l :=
            match l with
            | [] => Forall_nil P
            | x :: tl => Forall_cons x (json_induction x) (all tl)
            end) l)
  | JDict d =>
      P_dict d
        ((fix all (d : list (string * json))
            : Forall (fun kv => P (snd kv)) d :=
            match d with
            | [] => Forall_nil _
            | kv :: tl =>
                Forall_cons (P := fun kv => P (snd kv)) kv
                  (json_induction (snd kv)) (all tl)
            end) d)
  end.

End JsonInduction.

(** ** The order of keys *)

Lemma ascii_compare_eq (a b : ascii) : Ascii.compare a b = Eq -> a = b.
Proof. apply Ascii.compare_eq_iff. Qed.

Lemma ascii_compare_lt_trans (a b c : ascii) :
  Ascii.compare a b = Lt -> Ascii.compare b c = Lt -> Ascii.compare a c = Lt.
Proof.
  unfold Ascii.compare. rewrite !N.compare_lt_iff. apply N.lt_trans.
Qed.

Lemma string_leb_trans (a b c : string) :
  String.leb a b = true -> String.leb b c = true -> String.leb a c = true.
Proof.
  unfold String.leb. revert b c.
  induction a as [|x a IH]; intros [|y b] [|z c]; simpl; try congruence.
  destruct (Ascii.compare x y) eqn:Hxy; try congruence;
    destruct (Ascii.compare y z) eqn:Hyz; try congruence; intros Hab Hbc.
  - apply ascii_compare_eq in Hxy, Hyz. subst.
    replace (Ascii.compare z z) with Eq
      by (symmetry; unfold Ascii.compare; apply N.compare_refl).
    now apply (IH b c).
  - apply ascii_compare_eq in Hxy. subst. now rewrite Hyz.
  - apply ascii_compare_eq in Hyz. subst. now rewrite Hxy.
  - now rewrite (ascii_compare_lt_trans x y z Hxy Hyz).
Qed.

Lemma string_leb_false (a b : string) :
  String.leb a b = false -> String.leb b a = true.
Proof.
  intros H. destruct (String.leb_total a b) as [H'|H']; congruence.
Qed.

(** ** Sorting the items of a dict *)

Section SortItems.

Context {A : Type}.
Implicit Types (x y : string * A) (l : list (string * A)).

Lemma insert_item_comm x y l :
  fst x <> fst y ->
  insert_item x (insert_item y l) = insert_item y (insert_item x l).
Proof.
  intros Hxy. induction l as [|z l IH]; simpl.
  - destruct (String.leb (fst x) (fst y)) eqn:Exy,
             (String.leb (fst y) (fst x)) eqn:Eyx; try reflexivity.
    + exfalso. now apply Hxy, String.leb_antisym.
    + apply string_leb_false in Exy. congruence.
  - destruct (String.leb (fst y) (fst z)) eqn:Eyz,
             (String.leb (fst x) (fst z)) eqn:Exz; simpl;
      rewrite ?Eyz, ?Exz;
      destruct (String.leb (fst x) (fst y)) eqn:Exy,
               (String.leb (fst y) (fst x)) eqn:Eyx;
      try reflexivity;
      try (exfalso; now apply Hxy, String.leb_antisym);
      try (apply string_leb_false in Exy; congruence).
    + rewrite (string_leb_trans _ _ _ Exy Eyz) in Exz. discriminate.
    + rewrite (string_leb_trans _ _ _ Eyx Exz) in Eyz. discriminate.
    + now rewrite IH.
Qed.

Lemma insert_item_perm x l : Permutation (x :: l) (insert_item x l).
Proof.
  induction l as [|y l IH]; simpl; [reflexivity|].
  destruct (String.leb (fst x) (fst y)); [reflexivity|].
  rewrite perm_swap. now apply perm_skip.
Qed.

Lemma sort_items_perm l : Permutation l (sort_items l).
Proof.
  induction l as [|x l IH]; simpl; [reflexivity|].
  rewrite <- insert_item_perm. now apply perm_skip.
Qed.

(** Dicts that hold the same items give the same sorted items. *)
Lemma sort_items_unique l l' :
  Permutation l l' -> NoDup (map fst l) -> sort_items l = sort_items l'.
Proof.
  induction 1 as [|x l l' Hp IH|x y l|l l' l'' Hp IH Hp' IH']; intros Hnd;
    simpl.
  - reflexivity.
  - inversion Hnd; subst. now rewrite IH.
  - apply insert_item_comm. inversion Hnd as [|? ? Hin _]; subst.
    intros E. apply Hin. simpl. now left.
  - rewrite IH by assumption. apply IH'.
    eapply Permutation_NoDup; [|exact Hnd]. now apply Permutation_map.
Qed.

End SortItems.

(** ** Lookup in a dict *)

Lemma lookup_In k v d : lookup k d = Some v -> In (k, v) d.
Proof.
  induction d as [|[k' v'] d IH]; simpl; [discriminate|].
  destruct (String.eqb_spec k' k) as [->|Hne].
  - intros [= ->]. now left.
  - intros H. right. now apply IH.
Qed.

Lemma In_lookup k v d : NoDup (map fst d) -> In (k, v) d -> lookup k d = Some v.
Proof.
  induction d as [|[k' v'] d IH]; simpl; [tauto|].
  intros Hnd [E|Hin]; inversion Hnd as [|? ? Hnotin Hnd']; subst.
  - injection E as -> ->. now rewrite String.eqb_refl.
  - destruct (String.eqb_spec k' k) as [->|Hne]; [|now apply IH].
    exfalso. apply Hnotin. change k with (fst (k, v)). now apply in_map.
Qed.

(** ** [dumps] does not see the order of insertion *)

Definition dumped (kv : string * json) : string * string :=
  (fst kv, dumps (snd kv)).

Lemma dumps_dict d :
  dumps (JDict d) =
  ("{" ++ join ", " (map json_item (sort_items (map dumped d))) ++ "}")%string.
Proof. reflexivity. Qed.

Lemma map_fst_dumped d : map fst (map dumped d) = map fst d.
Proof. rewrite map_map. now apply map_ext. Qed.

Lemma dumped_incl d1 d2 :
  NoDup (map fst d1) ->
  Forall (fun kv => forall j, same_fields (snd kv) j -> dumps (snd kv) = dumps j) d1 ->
  (forall k v1, lookup k d1 = Some v1 ->
                exists v2, lookup k d2 = Some v2 /\ same_fields v1 v2) ->
  incl (map dumped d1) (map dumped d2).
Proof.
  intros Hnd IH H12 [k s] Hin.
  apply in_map_iff in Hin as [[k1 v1] [E Hin]]. injection E as -> <-.
  destruct (H12 k v1 (In_lookup _ _ _ Hnd Hin)) as [v2 [Hl Hs]].
  rewrite Forall_forall in IH. specialize (IH _ Hin v2 Hs). simpl in IH.
  rewrite IH. apply in_map_iff. exists (k, v2). split; [reflexivity|].
  now apply lookup_In.
Qed.

Lemma dumped_incl_rev d1 d2 :
  NoDup (map fst d2) ->
  Forall (fun kv => forall j, same_fields (snd kv) j -> dumps (snd kv) = dumps j) d1 ->
  (forall k v2, lookup k d2 = Some v2 ->
                exists v1, lookup k d1 = Some v1 /\ same_fields v1 v2) ->
  incl (map dumped d2) (map dumped d1).
Proof.
  intros Hnd IH H21 [k s] Hin.
  apply in_map_iff in Hin as [[k2 v2] [E Hin]]. injection E as -> <-.
  destruct (H21 k v2 (In_lookup _ _ _ Hnd Hin)) as [v1 [Hl Hs]].
  apply lookup_In in Hl.
  rewrite Forall_forall in IH. specialize (IH _ Hl v2 Hs). simpl in IH.
  rewrite <- IH. apply in_map_iff. exists (k, v1). split; [reflexivity|assumption].
Qed.

Lemma same_fields_dumps j1 : forall j2, same_fields j1 j2 -> dumps j1 = dumps j2.
Proof.
  induction j1 as [| | | | |l IH|d IH] using json_induction;
    intros j2 H; inversion H; subst; try reflexivity.
  - (* lists *)
    simpl. do 3 f_equal.
    match goal with HF : Forall2 _ _ _ |- _ => induction HF as [|x y l l' Hxy HF IHF] end;
      [reflexivity|].
    inversion IH; subst. simpl. f_equal; auto.
    apply IHF; [assumption|]. now constructor.
  - (* dicts *)
    rewrite !dumps_dict. do 4 f_equal.
    apply sort_items_unique; [|now rewrite map_fst_dumped].
    apply NoDup_Permutation.
    + apply (NoDup_map_inv fst). now rewrite map_fst_dumped.
    + apply (NoDup_map_inv fst). now rewrite map_fst_dumped.
    + intros x. split.
      * now apply dumped_incl.
      * now apply dumped_incl_rev.
Qed.

Lemma distinct_NoDup keys : distinct keys = true -> NoDup keys.
Proof.
  induction keys as [|k tl IH]; simpl; [constructor|].
  intros H. apply andb_prop in H as [Hk Htl]. constructor; [|now apply IH].
  intros Hin. apply negb_true_iff in Hk.
  assert (existsb (String.eqb k) tl = true) as E; [|congruence].
  apply existsb_exists. exists k. split; [assumption|apply String.eqb_refl].
Qed.

Lemma same_fields_refl j : well_formed j = true -> same_fields j j.
Proof.
  induction j as [| | | | |l IH|d IH] using json_induction; intros Hwf;
    try constructor.
  - simpl in Hwf. rewrite forallb_forall in Hwf. rewrite Forall_forall in IH.
    clear -Hwf IH. induction l as [|x l IHl]; constructor.
    + apply IH; [now left|]. apply Hwf. now left.
    + apply IHl; intros; [apply IH|apply Hwf]; now try right.
  - simpl in Hwf. apply andb_prop in Hwf as [Hd _]. now apply distinct_NoDup.
  - simpl in Hwf. apply andb_prop in Hwf as [Hd _]. now apply distinct_NoDup.
  - intros k v Hl. exists v. split; [assumption|].
    simpl in Hwf. apply andb_prop in Hwf as [_ Hall].
    rewrite forallb_forall in Hall. rewrite Forall_forall in IH.
    apply lookup_In in Hl. apply (IH _ Hl). apply (Hall _ Hl).
  - intros k v Hl. exists v. split; [assumption|].
    simpl in Hwf. apply andb_prop in Hwf as [_ Hall].
    rewrite forallb_forall in Hall. rewrite Forall_forall in IH.
    apply lookup_In in Hl. apply (IH _ Hl). apply (Hall _ Hl).
Qed.

(** The same items inserted in another order make a dict with the same
    fields. *)
Lemma same_fields_reorder d1 d2 :
  Permutation d1 d2 -> well_formed (JDict d1) = true ->
  same_fields (JDict d1) (JDict d2).
Proof.
  intros Hp Hwf. simpl in Hwf. apply andb_prop in Hwf as [Hd Hall].
  apply distinct_NoDup in Hd. rewrite forallb_forall in Hall.
  assert (NoDup (map fst d2)) as Hd2
    by (eapply Permutation_NoDup; [apply Permutation_map; exact Hp|exact Hd]).
  constructor; try assumption.
  - intros k v Hl. exists v. apply lookup_In in Hl. split.
    + apply In_lookup; [assumption|]. eapply Permutation_in; eassumption.
    + apply same_fields_refl. apply (Hall _ Hl).
  - intros k v Hl. exists v. apply lookup_In in Hl.
    apply Permutation_sym in Hp.
    assert (In (k, v) d1) as Hin by (eapply Permutation_in; eassumption).
    split; [now apply In_lookup|]. apply same_fields_refl. apply (Hall _ Hin).
Qed.

(** ** The puzzle *)

Lemma substring_prefix4 (s : string) :
  substring 0 4 s = "0000" <-> exists tail, s = ("0000" ++ tail)%string.
Proof.
  destruct s as [|a [|b [|c [|d tail]]]]; simpl; split;
    try discriminate; try (intros [tail' E]; discriminate E).
  - intros [= -> -> -> ->]. now exists tail.
  - intros [tail' [= -> -> -> -> _]]. now destruct tail.
Qed.

Lemma valid_proof_prefix (last_proof proof : json) :
  valid_proof last_proof proof = true <->
  exists tail,
    SHA256.hexdigest (encode (str last_proof ++ str proof))
    = ("0000" ++ tail)%string.
Proof.
  unfold valid_proof. rewrite String.eqb_eq. apply substring_prefix4.
Qed.

(** The search, started at [start] with [m] the first valid proof from
    there on, ends at [m], after [m - start + 1] tests. *)
Lemma proof_of_work_from_S fuel last_proof proof :
  proof_of_work_from (S fuel) last_proof proof
  = if valid_proof last_proof (JInt proof) then Some proof
    else proof_of_work_from fuel last_proof (proof + 1).
Proof. reflexivity. Qed.

Lemma proof_of_work_from_spec (last_proof : json) (m : Z) :
  valid_proof last_proof (JInt m) = true ->
  forall fuel start,
    start <= m ->
    (forall y, start <= y < m -> valid_proof last_proof (JInt y) = false) ->
    proof_of_work_from fuel last_proof start
    = if (Z.to_nat (m - start) <? fuel)%nat then Some m else None.
Proof.
  intros Hm. induction fuel as [|fuel IH]; intros start Hle Hbelow.
  - reflexivity.
  - rewrite proof_of_work_from_S.
    destruct (Z.eq_dec start m) as [->|Hne].
    + rewrite Hm, Z.sub_diag. reflexivity.
    + rewrite (Hbelow start) by lia.
      rewrite IH by (try lia; intros; apply Hbelow; lia).
      replace (Z.to_nat (m - start)) with (S (Z.to_nat (m - (start + 1)))) by lia.
      reflexivity.
Qed.

(** Below a valid proof there is a first one. *)
Lemma first_valid_proof (last_proof : json) (x : Z) :
  0 <= x -> valid_proof last_proof (JInt x) = true ->
  exists m, 0 <= m <= x /\ valid_proof last_proof (JInt m) = true /\
            forall y, 0 <= y < m -> valid_proof last_proof (JInt y) = false.
Proof.
  intros Hx Hv.
  assert (forall n : nat,
            (exists m, 0 <= m < Z.of_nat n /\
                       valid_proof last_proof (JInt m) = true /\
                       forall y, 0 <= y < m ->
                                 valid_proof last_proof (JInt y) = false) \/
            (forall y, 0 <= y < Z.of_nat n ->
                       valid_proof last_proof (JInt y) = false)) as Hsearch.
  { induction n as [|n [Hfound|Hnone]].
    - right. lia.
    - left. destruct Hfound as [m [Hm H]]. exists m. split; [lia|exact H].
    - destruct (valid_proof last_proof (JInt (Z.of_nat n))) eqn:Hn.
      + left. exists (Z.of_nat n). repeat split; try lia; assumption.
      + right. intros y Hy. destruct (Z.eq_dec y (Z.of_nat n)) as [->|Hne];
          [assumption|apply Hnone; lia]. }
  destruct (Hsearch (S (Z.to_nat x))) as [[m [Hm [Hvm Hleast]]]|Hnone].
  - exists m. repeat split; try lia; try assumption.
  - rewrite (Hnone x) in Hv by lia. discriminate.
Qed.

(** ** Walking a chain *)

Lemma is_str_true v h : is_str v h = true <-> v = JStr h.
Proof.
  destruct v; simpl; split; try discriminate.
  - intros H. apply String.eqb_eq in H. now subst.
  - intros [= ->]. apply String.eqb_refl.
Qed.

Lemma valid_chain_from_cons last_block block rest :
  valid_chain_from last_block (block :: rest) =
  (previous_hash <- getitem block "previous_hash" ;;
   if negb (is_str previous_hash (hash last_block)) then Ok false
   else
     last_proof <- getitem last_block "proof" ;;
     proof <- getitem block "proof" ;;
     if negb (valid_proof last_proof proof) then Ok false
     else valid_chain_from block rest).
Proof. reflexivity. Qed.

(** A linked block passes both checks of the loop. *)
Lemma valid_chain_from_linked prev block rest :
  linked prev block = true ->
  valid_chain_from prev (block :: rest) = valid_chain_from block rest.
Proof.
  rewrite valid_chain_from_cons. unfold linked, bind.
  destruct (getitem block "previous_hash") as [ph| |]; try discriminate.
  destruct (getitem prev "proof") as [lp| |]; try discriminate.
  destruct (getitem block "proof") as [p| |]; try discriminate.
  intros H. apply andb_prop in H as [-> ->]. reflexivity.
Qed.

(** A block that is not linked stops the loop, with [False] or with an
    exception, never with [True]. *)
Lemma valid_chain_from_unlinked prev block rest :
  linked prev block = false ->
  valid_chain_from prev (block :: rest) <> Ok true.
Proof.
  rewrite valid_chain_from_cons. unfold linked, bind.
  destruct (getitem block "previous_hash") as [ph| |]; try discriminate.
  destruct (is_str ph (hash prev)); simpl; try discriminate.
  destruct (getitem prev "proof") as [lp| |]; try discriminate.
  destruct (getitem block "proof") as [p| |]; try discriminate.
  intros ->. discriminate.
Qed.

Lemma valid_chain_from_true prev rest :
  valid_chain_from prev rest = Ok true <-> invariant_from prev rest = true.
Proof.
  revert prev. induction rest as [|block rest IH]; intros prev.
  - simpl. tauto.
  - change (invariant_from prev (block :: rest))
      with (linked prev block && invariant_from block rest).
    destruct (linked prev block) eqn:Hl.
    + rewrite (valid_chain_from_linked _ _ _ Hl). apply IH.
    + split; [|discriminate].
      intros H. now apply valid_chain_from_unlinked in H.
Qed.

Lemma last_cons {A : Type} (x d : A) (l : list A) : last (x :: l) d = last l x.
Proof.
  revert x d. induction l as [|y l IH]; intros x d; [reflexivity|].
  change (last (x :: y :: l) d) with (last (y :: l) d).
  now rewrite !IH.
Qed.

Lemma invariant_from_app prev pre rest :
  invariant_from prev (pre ++ rest)
  = invariant_from prev pre && invariant_from (last pre prev) rest.
Proof.
  revert prev. induction pre as [|b pre IH]; intros prev.
  - reflexivity.
  - change (invariant_from prev ((b :: pre) ++ rest))
      with (linked prev b && invariant_from b (pre ++ rest)).
    change (invariant_from prev (b :: pre))
      with (linked prev b && invariant_from b pre).
    now rewrite IH, andb_assoc, last_cons.
Qed.

Lemma valid_chain_from_app prev pre rest :
  invariant_from prev pre = true ->
  valid_chain_from prev (pre ++ rest) = valid_chain_from (last pre prev) rest.
Proof.
  revert prev. induction pre as [|b pre IH]; intros prev H.
  - reflexivity.
  - change (invariant_from prev (b :: pre))
      with (linked prev b && invariant_from b pre) in H.
    apply andb_prop in H as [Hl Hi].
    change ((b :: pre) ++ rest) with (b :: (pre ++ rest)).
    now rewrite (valid_chain_from_linked _ _ _ Hl), (IH _ Hi), last_cons.
Qed.

Lemma last_item_snoc l b : last_item (l ++ [b]) = Ok b.
Proof. unfold last_item. now rewrite rev_unit. Qed.

Lemma last_item_cons first rest : last_item (first :: rest) = Ok (last rest first).
Proof.
  destruct (@exists_last _ (first :: rest)) as [l [b E]]; [discriminate|].
  rewrite E, last_item_snoc. f_equal.
  rewrite <- (last_cons first first rest), E. symmetry. apply last_last.
Qed.

Lemma last_item_Ok l b : last_item l = Ok b -> exists l', l = l' ++ [b].
Proof.
  destruct l as [|first rest]; [discriminate|].
  destruct (@exists_last _ (first :: rest)) as [l' [b' E]]; [discriminate|].
  rewrite E, last_item_snoc. intros [= ->]. now exists l'.
Qed.

(** Sealing a linked block keeps the invariant. *)
Lemma invariant_snoc l last_block block :
  last_item l = Ok last_block ->
  invariant (l ++ [block]) = invariant l && linked last_block block.
Proof.
  destruct l as [|first rest]; [discriminate|].
  rewrite last_item_cons. intros [= <-].
  change (invariant ((first :: rest) ++ [block]))
    with (invariant_from first (rest ++ [block])).
  rewrite invariant_from_app. simpl. now rewrite andb_true_r.
Qed.

(** [valid_chain] accepts exactly the chains that have a first block and
    keep the invariant. *)
Lemma valid_chain_true chain :
  valid_chain chain = Ok true <-> chain <> [] /\ invariant chain = true.
Proof.
  destruct chain as [|first rest]; simpl.
  - split; [discriminate|]. now intros [H _].
  - rewrite valid_chain_from_true. split; [|tauto]. split; [discriminate|assumption].
Qed.

Lemma linked_intro prev block last_proof proof :
  getitem block "previous_hash" = Ok (JStr (hash prev)) ->
  getitem prev "proof" = Ok last_proof ->
  getitem block "proof" = Ok proof ->
  valid_proof last_proof proof = true ->
  linked prev block = true.
Proof.
  unfold linked. intros -> -> -> ->. cbn [is_str].
  now rewrite String.eqb_refl.
Qed.

Lemma linked_elim prev block :
  linked prev block = true ->
  getitem block "previous_hash" = Ok (JStr (hash prev)) /\
  exists last_proof proof,
    getitem prev "proof" = Ok last_proof /\
    getitem block "proof" = Ok proof /\
    valid_proof last_proof proof = true.
Proof.
  unfold linked.
  destruct (getitem block "previous_hash") as [ph| |]; try discriminate.
  destruct (getitem prev "proof") as [lp| |]; try discriminate.
  destruct (getitem block "proof") as [p| |]; try discriminate.
  intros H. apply andb_prop in H as [Hs Hv]. apply is_str_true in Hs.
  subst ph. split; [reflexivity|]. now exists lp, p.
Qed.

(** ** The operations of the class *)

Lemma new_block_sealed now proof previous_hash self last_block :
  last_item (chain self) = Ok last_block ->
  let link := if truthy previous_hash then previous_hash
              else JStr (hash last_block) in
  new_block now proof previous_hash self
  = (Ok (sealed_block now proof link self),
     sealed (sealed_block now proof link self) self).
Proof.
  intros H. unfold new_block. rewrite H.
  now destruct (truthy previous_hash).
Qed.

Lemma new_block_chain now proof previous_hash self :
  let self' := snd (new_block now proof previous_hash self) in
  chain self' = chain self \/ exists block, self' = sealed block self.
Proof.
  unfold new_block.
  destruct (truthy previous_hash); [right; eexists; reflexivity|].
  destruct (last_item (chain self));
    [right; eexists; reflexivity|left; reflexivity|left; reflexivity].
Qed.

Lemma new_transaction_state sender recipient amount self :
  snd (new_transaction sender recipient amount self)
  = {| chain := chain self;
       current_transactions :=
         current_transactions self ++
           [JDict [ ("sender", sender); ("recipient", recipient);
                    ("amount", amount) ]];
       nodes := nodes self |}.
Proof. reflexivity. Qed.

Lemma register_node_chain netloc self :
  chain (snd (register_node netloc self)) = chain self
  /\ current_transactions (snd (register_node netloc self))
     = current_transactions self.
Proof. now destruct netloc. Qed.

Lemma proof_of_work_from_valid fuel last_proof : forall start proof,
  proof_of_work_from fuel last_proof start = Some proof ->
  valid_proof last_proof (JInt proof) = true.
Proof.
  induction fuel as [|fuel IH]; intros start proof; [discriminate|].
  rewrite proof_of_work_from_S.
  destruct (valid_proof last_proof (JInt start)) eqn:E.
  - now intros [= <-].
  - apply IH.
Qed.

(** What [mine] leaves: the chain as it was, or one more block, sealed by
    [new_block] with a proof that answers the last one. *)
Lemma mine_state fuel node_identifier now self out self' :
  mine fuel node_identifier now self = Some (out, self') ->
  chain self' = chain self \/
  exists last_block last_proof proof b1,
    last_item (chain self) = Ok last_block /\
    getitem last_block "proof" = Ok last_proof /\
    valid_proof last_proof (JInt proof) = true /\
    chain b1 = chain self /\
    self' = sealed (sealed_block now (JInt proof) (JStr (hash last_block)) b1) b1.
Proof.
  unfold mine.
  destruct (last_item (chain self)) as [last_block| |] eqn:Hlast;
    try (intros [= <- <-]; now left).
  unfold bind.
  destruct (getitem last_block "proof") as [last_proof| |] eqn:Hproof;
    try (intros [= <- <-]; now left).
  destruct (proof_of_work fuel last_proof) as [proof|] eqn:Hpow; [|discriminate].
  apply proof_of_work_from_valid in Hpow.
  destruct (new_transaction (JStr "0") (JStr node_identifier) (JInt 1) self)
    as [r b1] eqn:Htx.
  assert (b1 = snd (new_transaction (JStr "0") (JStr node_identifier) (JInt 1) self))
    as Hb1 by now rewrite Htx.
  rewrite new_transaction_state in Hb1.
  destruct r; try (intros [= <- <-]; left; now rewrite Hb1).
  assert (last_item (chain b1) = Ok last_block) as Hlast1 by now rewrite Hb1.
  rewrite (new_block_sealed now (JInt proof) JNull b1 last_block Hlast1).
  cbn [truthy]. intros [= _ <-]. right.
  exists last_block, last_proof, proof, b1.
  repeat split; try assumption. now rewrite Hb1.
Qed.

Lemma mine_chain fuel node_identifier now self out self' :
  mine fuel node_identifier now self = Some (out, self') ->
  chain self' = chain self \/
  exists last_block block,
    last_item (chain self) = Ok last_block /\
    linked last_block block = true /\
    chain self' = chain self ++ [block].
Proof.
  intros H.
  apply mine_state in H
    as [H|[last_block [last_proof [proof [b1 [Hl [Hp [Hv [Hc ->]]]]]]]]];
    [now left|right].
  exists last_block, (sealed_block now (JInt proof) (JStr (hash last_block)) b1).
  split; [assumption|]. split.
  - now apply (linked_intro _ _ last_proof (JInt proof)).
  - unfold sealed. cbn [chain]. now rewrite Hc.
Qed.

(** ** Conflict resolution *)

Lemma resolve_loop_cons r rest max_length new_chain :
  resolve_loop (r :: rest) max_length new_chain =
  match r with
  | Unreachable => Raise ConnectionError
  | Response status_code body =>
      if status_code =? 200 then
        match body with
        | None => Raise JSONDecodeError
        | Some b =>
            if body_length b >? max_length then
              valid <- valid_chain (body_chain b) ;;
              if valid then resolve_loop rest (body_length b) (Some (body_chain b))
              else resolve_loop rest max_length new_chain
            else resolve_loop rest max_length new_chain
        end
      else resolve_loop rest max_length new_chain
  end.
Proof. reflexivity. Qed.

(** The chain the loop retains is the one it started with, or the chain of
    a peer that answered 200, reported more than [max_length] blocks and
    passed [valid_chain]. *)
Lemma resolve_loop_sound replies : forall max_length new_chain r,
  resolve_loop replies max_length new_chain = Ok r ->
  r = new_chain \/
  exists b, In (Response 200 (Some b)) replies /\
            r = Some (body_chain b) /\
            valid_chain (body_chain b) = Ok true /\
            max_length < body_length b.
Proof.
  induction replies as [|[|status_code body] rest IH];
    intros max_length new_chain r.
  - intros [= <-]. now left.
  - discriminate.
  - rewrite resolve_loop_cons.
    assert (forall m c, resolve_loop rest m c = Ok r ->
              max_length <= m ->
              r = c \/
              exists b, In (Response 200 (Some b)) (Response status_code body :: rest) /\
                        r = Some (body_chain b) /\
                        valid_chain (body_chain b) = Ok true /\
                        max_length < body_length b) as Hrest.
    { intros m c H Hm. apply IH in H as [->|[b [Hin [-> [Hv Hlt]]]]]; [now left|].
      right. exists b. repeat split; [now right|assumption|lia]. }
    destruct (Z.eqb_spec status_code 200) as [->|Hne].
    2: { intros H. apply Hrest in H; [assumption|lia]. }
    destruct body as [b|]; [|discriminate].
    destruct (Z.gtb_spec (body_length b) max_length) as [Hgt|Hle].
    2: { intros H. apply Hrest in H; [assumption|lia]. }
    unfold bind.
    destruct (valid_chain (body_chain b)) as [[|]| |] eqn:Hv; try discriminate.
    + intros H. right. apply Hrest in H as [->|H]; [|assumption|lia].
      exists b. repeat split; [now left|assumption|lia].
    + intros H. apply Hrest in H; [assumption|lia].
Qed.

(** A peer that answers with another status than 200 is passed over. *)
Lemma resolve_loop_skip pre status_code body post :
  status_code <> 200 ->
  forall max_length new_chain,
    resolve_loop (pre ++ Response status_code body :: post) max_length new_chain
    = resolve_loop (pre ++ post) max_length new_chain.
Proof.
  intros Hne. induction pre as [|[|st bd] pre IH]; intros max_length new_chain.
  - cbn [app]. rewrite resolve_loop_cons.
    now destruct (Z.eqb_spec status_code 200).
  - reflexivity.
  - cbn [app]. rewrite !resolve_loop_cons.
    destruct (st =? 200); [|apply IH].
    destruct bd as [b|]; [|reflexivity].
    destruct (body_length b >? max_length); [|apply IH].
    unfold bind. destruct (valid_chain (body_chain b)) as [[|]| |];
      try reflexivity; apply IH.
Qed.

Lemma valid_chain_from_modelled prev rest :
  valid_chain_from prev rest <> Unmodelled.
Proof.
  revert prev. induction rest as [|block rest IH]; intros prev; [discriminate|].
  rewrite valid_chain_from_cons. unfold getitem, bind.
  destruct block; try discriminate.
  destruct (lookup "previous_hash" d); [|discriminate].
  destruct (negb _); [discriminate|].
  destruct prev; try discriminate.
  destruct (lookup "proof" d0); [|discriminate].
  destruct (lookup "proof" d); [|discriminate].
  destruct (negb _); [discriminate|apply IH].
Qed.

(** A peer that cannot be reached ends the loop with an exception. *)
Lemma resolve_loop_unreachable pre post :
  forall max_length new_chain,
    exists e,
      resolve_loop (pre ++ Unreachable :: post) max_length new_chain = Raise e.
Proof.
  induction pre as [|[|st bd] pre IH]; intros max_length new_chain.
  - now exists ConnectionError.
  - now exists ConnectionError.
  - cbn [app]. rewrite resolve_loop_cons.
    destruct (st =? 200); [|apply IH].
    destruct bd as [b|]; [|now exists JSONDecodeError].
    destruct (body_length b >? max_length); [|apply IH].
    unfold bind.
    destruct (valid_chain (body_chain b)) as [[|]|e|] eqn:Hv; try apply IH.
    + now exists e.
    + exfalso. destruct (body_chain b) as [|first rest]; [discriminate|].
      now apply valid_chain_from_modelled in Hv.
Qed.

(** [resolve_conflicts] leaves the state as it was, or replaces the chain
    by the chain of a peer that qualifies. *)
Lemma resolve_conflicts_cases replies self :
  (snd (resolve_conflicts replies self) = self /\
   fst (resolve_conflicts replies self) <> Ok true) \/
  exists b, In (Response 200 (Some b)) replies /\
            valid_chain (body_chain b) = Ok true /\
            Z.of_nat (List.length (chain self)) < body_length b /\
            resolve_conflicts replies self
            = (Ok true, replaced (body_chain b) self).
Proof.
  unfold resolve_conflicts.
  destruct (resolve_loop replies (Z.of_nat (List.length (chain self))) None)
    as [[[|first rest]|]| |] eqn:E;
    try (left; split; [reflexivity|discriminate]).
  right. apply resolve_loop_sound in E as [E|[b [Hin [E [Hv Hlt]]]]];
    [discriminate|].
  injection E as E. exists b. rewrite E. now repeat split.
Qed.

(** X21.  Where every peer that answers reports the length of the chain it
    sends, as the [/chain] endpoint of a node does, a chain that is adopted
    is valid and longer than the chain it replaces. *)
Lemma resolve_conflicts_true_lengths replies self self' :
  (forall b, In (Response 200 (Some b)) replies ->
             body_length b = Z.of_nat (List.length (body_chain b))) ->
  resolve_conflicts replies self = (Ok true, self') ->
  valid_chain (chain self') = Ok true /\
  (List.length (chain self) < List.length (chain self'))%nat.
Proof.
  intros Htrue Hres.
  destruct (resolve_conflicts_cases replies self)
    as [[_ Hne]|[b [Hin [Hv [Hlt H]]]]].
  - rewrite Hres in Hne. now contradiction Hne.
  - rewrite H in Hres. injection Hres as <-. cbn [replaced chain].
    split; [assumption|]. rewrite (Htrue b Hin) in Hlt. lia.
Qed.

(** ** One step of the node *)

Lemma seals_by_rule_linked now proof previous_hash self :
  seals_by_rule (NewBlock now proof previous_hash) self = true ->
  exists last_block,
    last_item (chain self) = Ok last_block /\
    new_block now proof previous_hash self
    = (Ok (sealed_block now proof (JStr (hash last_block)) self),
       sealed (sealed_block now proof (JStr (hash last_block)) self) self) /\
    linked last_block (sealed_block now proof (JStr (hash last_block)) self)
    = true.
Proof.
  unfold seals_by_rule.
  destruct (last_item (chain self)) as [last_block| |] eqn:Hlast;
    try discriminate.
  destruct (getitem last_block "proof") as [last_proof| |] eqn:Hp;
    try discriminate.
  intros H. apply andb_prop in H as [Hv Hlink].
  exists last_block. split; [reflexivity|]. split.
  - rewrite (new_block_sealed _ _ _ _ _ Hlast). cbv zeta.
    destruct (truthy previous_hash); [|reflexivity].
    simpl in Hlink. apply is_str_true in Hlink. now subst.
  - now apply (linked_intro _ _ last_proof proof).
Qed.

Lemma run_invariant o self self' :
  run o self = Some self' ->
  seals_by_rule o self = true ->
  invariant (chain self) = true ->
  invariant (chain self') = true.
Proof.
  destruct o as [sender recipient amount|now proof previous_hash|netloc
                |replies|fuel node_identifier now]; cbn [run].
  - intros [= <-] _ H. exact H.
  - intros [= <-] Hrule H.
    apply seals_by_rule_linked in Hrule as [last_block [Hlast [-> Hl]]].
    cbn [snd sealed chain].
    now rewrite (invariant_snoc _ _ _ Hlast), H, Hl.
  - intros [= <-] _ H. now destruct netloc.
  - destruct (Nat.eqb _ _); [|discriminate]. intros [= <-] _ H.
    destruct (resolve_conflicts_cases replies self)
      as [[-> _]|[b [_ [Hv [_ ->]]]]]; [assumption|].
    cbn [snd replaced chain]. now apply valid_chain_true in Hv.
  - destruct (mine fuel node_identifier now self) as [[out s]|] eqn:E;
      [|discriminate].
    intros [= <-] _ H.
    apply mine_chain in E as [->|[last_block [block [Hlast [Hl ->]]]]];
      [assumption|].
    now rewrite (invariant_snoc _ _ _ Hlast), H, Hl.
Qed.

Lemma run_all_invariant ops : forall self self',
  run_all ops self = Some self' ->
  by_rule ops self = true ->
  invariant (chain self) = true ->
  invariant (chain self') = true.
Proof.
  induction ops as [|o ops IH]; intros self self'.
  - now intros [= <-].
  - cbn [run_all by_rule].
    destruct (run o self) as [s|] eqn:E; [|discriminate].
    intros Hrun Hrule Hinv. apply andb_prop in Hrule as [Ho Hrest].
    apply (IH s self' Hrun Hrest). now apply (run_invariant o self).
Qed.

(** ** Changing a field of a block *)

Lemma lookup_setitem_same k v d : lookup k (setitem k v d) = Some v.
Proof.
  induction d as [|[k' v'] d IH]; simpl.
  - now rewrite String.eqb_refl.
  - destruct (String.eqb k' k) eqn:E; simpl; now rewrite E.
Qed.

Lemma lookup_setitem_other k k' v d :
  k' <> k -> lookup k' (setitem k v d) = lookup k' d.
Proof.
  intros Hne. induction d as [|[k0 v0] d IH]; simpl.
  - destruct (String.eqb_spec k k'); [congruence|reflexivity].
  - destruct (String.eqb_spec k0 k) as [->|Hk]; simpl.
    + destruct (String.eqb_spec k k'); [congruence|reflexivity].
    + now rewrite IH.
Qed.

Lemma getitem_dict k d v : getitem (JDict d) k = Ok v <-> lookup k d = Some v.
Proof.
  unfold getitem. destruct (lookup k d); split; congruence.
Qed.

(** The successor of a block records its hash, and so rejects any block
    with another hash in its place. *)
Lemma successor_rejects block block' next rest :
  linked block next = true ->
  hash block' <> hash block ->
  valid_chain_from block' (next :: rest) = Ok false.
Proof.
  intros Hl Hne. apply linked_elim in Hl as [Hph _].
  rewrite valid_chain_from_cons, Hph. unfold bind. cbn [is_str].
  destruct (String.eqb_spec (hash block) (hash block')) as [E|_];
    [now symmetry in E|reflexivity].
Qed.

Lemma setitem_same k v d : lookup k d = Some v -> setitem k v d = d.
Proof.
  induction d as [|[k' v'] d IH]; cbn [lookup setitem]; [discriminate|].
  destruct (String.eqb k' k); [now intros [= ->]|].
  intros H. now rewrite (IH H).
Qed.

(** In a chain that keeps the invariant, the walk of [valid_chain] reaches
    every block: it comes to the block after [prev] whatever that block has
    become. *)
Lemma invariant_at pre prev block post :
  invariant (pre ++ prev :: block :: post) = true ->
  linked prev block = true /\
  (forall block' post',
     valid_chain (pre ++ prev :: block' :: post')
     = valid_chain_from prev (block' :: post')) /\
  invariant_from block post = true.
Proof.
  destruct pre as [|first pre]; cbn [app invariant].
  - cbn [invariant_from]. intros H. apply andb_prop in H as [Hl Hrest].
    repeat apply conj; [assumption| |assumption]. reflexivity.
  - rewrite invariant_from_app. cbn [invariant_from]. intros H.
    apply andb_prop in H as [Hpre H]. apply andb_prop in H as [Hprev H].
    apply andb_prop in H as [Hl Hrest].
    repeat apply conj; [assumption| |assumption].
    intros block' post'. cbn [valid_chain].
    now rewrite (valid_chain_from_app _ _ _ Hpre),
      (valid_chain_from_linked _ _ _ Hprev).
Qed.

(** The step of the loop at a block that was changed but kept its previous
    hash: what is left is the check of its proof. *)
Lemma changed_block_step prev d d' post last_proof :
  linked prev (JDict d) = true ->
  getitem prev "proof" = Ok last_proof ->
  lookup "previous_hash" d' = lookup "previous_hash" d ->
  valid_chain_from prev (JDict d' :: post) =
  (proof <- getitem (JDict d') "proof" ;;
   if negb (valid_proof last_proof proof) then Ok false
   else valid_chain_from (JDict d') post).
Proof.
  intros Hl Hlp Hsame. apply linked_elim in Hl as [Hph _].
  apply getitem_dict in Hph.
  rewrite valid_chain_from_cons. unfold getitem at 1.
  rewrite Hsame, Hph. unfold bind at 1. cbn [is_str].
  rewrite String.eqb_refl. cbn [negb]. rewrite Hlp. reflexivity.
Qed.

(** The successor of a block rejects a proof in its place that its own
    proof does not answer. *)
Lemma changed_proof_next block block' next rest proof next_proof :
  linked block next = true ->
  getitem block' "proof" = Ok proof ->
  getitem next "proof" = Ok next_proof ->
  valid_proof proof next_proof = false ->
  valid_chain_from block' (next :: rest) = Ok false.
Proof.
  intros Hl Hp Hnp Hv. apply linked_elim in Hl as [Hph _].
  rewrite valid_chain_from_cons, Hph. unfold bind at 1.
  destruct (negb (is_str (JStr (hash block)) (hash block'))); [reflexivity|].
  rewrite Hp, Hnp. unfold bind. now rewrite Hv.
Qed.

(** ** The index of the last block *)

Lemma index_is_length_sealed now proof link self :
  index_is_length (chain (sealed (sealed_block now proof link self) self)).
Proof.
  unfold index_is_length, sealed. cbn [chain].
  eexists. split; [apply last_item_snoc|].
  rewrite length_app, Nat.add_1_r, Nat2Z.inj_succ. unfold Z.succ.
  reflexivity.
Qed.

Lemma run_index_is_length o self self' :
  local o = true ->
  run o self = Some self' ->
  index_is_length (chain self) ->
  index_is_length (chain self').
Proof.
  destruct o as [sender recipient amount|now proof previous_hash|netloc
                |replies|fuel node_identifier now]; cbn [run local];
    try discriminate; intros _.
  - intros [= <-] H. exact H.
  - intros [= <-] H. unfold new_block.
    destruct (truthy previous_hash); [apply index_is_length_sealed|].
    destruct (last_item (chain self)); try exact H.
    apply index_is_length_sealed.
  - intros [= <-] H. now destruct netloc.
  - destruct (mine fuel node_identifier now self) as [[out s]|] eqn:E;
      [|discriminate].
    intros [= <-] H.
    apply mine_state in E as [->|[lb [lp [p [b1 [_ [_ [_ [_ ->]]]]]]]]];
      [assumption|apply index_is_length_sealed].
Qed.

Lemma run_all_index_is_length ops : forall self self',
  forallb local ops = true ->
  run_all ops self = Some self' ->
  index_is_length (chain self) ->
  index_is_length (chain self').
Proof.
  induction ops as [|o ops IH]; intros self self'.
  - now intros _ [= <-].
  - cbn [forallb run_all]. intros Hl. apply andb_prop in Hl as [Ho Hops].
    destruct (run o self) as [s|] eqn:E; [|discriminate].
    intros Hrun H. apply (IH s self' Hops Hrun).
    now apply (run_index_is_length o self).
Qed.

Lemma index_is_length_init now : index_is_length (chain (init now)).
Proof. eexists. split; reflexivity. Qed.

(** * The claims *)

(** ** The puzzle and its search *)

(** C1.  [valid_proof] holds of two integers exactly when the SHA-256 hex
    digest of their decimal texts, written one after the other, starts with
    four characters [0].  And whenever some proof from 0 on is valid for
    [last_proof], there is a smallest one, and [proof_of_work] returns it:
    the search tests 0, 1, 2, ... and ends at the smallest valid proof [m]
    as soon as its fuel allows [m + 1] tests. *)
Theorem valid_proof_and_proof_of_work (last_proof : Z) :
  (forall proof,
     valid_proof (JInt last_proof) (JInt proof) = true <->
     exists tail,
       SHA256.hexdigest (encode (str_of_int last_proof ++ str_of_int proof))
       = ("0000" ++ tail)%string) /\
  (forall x,
     0 <= x -> valid_proof (JInt last_proof) (JInt x) = true ->
     exists m,
       0 <= m <= x /\
       valid_proof (JInt last_proof) (JInt m) = true /\
       (forall y, 0 <= y < m -> valid_proof (JInt last_proof) (JInt y) = false) /\
       forall fuel,
         proof_of_work fuel (JInt last_proof)
         = if (Z.to_nat m <? fuel)%nat then Some m else None).
Proof.
  split.
  - intros proof. apply (valid_proof_prefix (JInt last_proof) (JInt proof)).
  - intros x Hx Hv.
    destruct (first_valid_proof _ _ Hx Hv) as [m [Hm [Hvm Hleast]]].
    exists m. repeat split; try lia; try assumption.
    intros fuel. unfold proof_of_work.
    rewrite (proof_of_work_from_spec _ m Hvm fuel 0) by (try lia; assumption).
    now rewrite Z.sub_0_r.
Qed.

Lemma valid_proof_and_proof_of_work_witness :
  0 <= 88 /\
  valid_proof (JInt 2840) (JInt 88) = true /\
  exists m,
    0 <= m <= 88 /\
    valid_proof (JInt 2840) (JInt m) = true /\
    (forall y, 0 <= y < m -> valid_proof (JInt 2840) (JInt y) = false) /\
    forall fuel,
      proof_of_work fuel (JInt 2840)
      = if (Z.to_nat m <? fuel)%nat then Some m else None.
Proof.
  split; [lia|]. split; [vm_compute; reflexivity|].
  apply (proj2 (valid_proof_and_proof_of_work 2840) 88);
    [lia|vm_compute; reflexivity].
Defined.

(** ** Chains of at most one block *)

(** C4, as the code has it.  A candidate chain of exactly one block is
    valid, whatever the block; the chain of a node that has just started is
    such a chain, its block having index 1, the sentinel proof 100 and the
    sentinel previous hash ["1"]. *)
Theorem valid_chain_single_block :
  (forall block, valid_chain [block] = Ok true) /\
  (forall now,
     chain (init now)
     = [JDict [ ("index", JInt 1); ("timestamp", JFloat now);
                ("transactions", JList []); ("proof", JInt 100);
                ("previous_hash", JStr "1") ]] /\
     valid_chain (chain (init now)) = Ok true).
Proof. split; [reflexivity|]. intros now. split; reflexivity. Qed.

(** C4, as it is stated, fails on the empty chain: [chain[0]] raises
    [IndexError] before anything is returned. *)
Lemma valid_chain_empty_raises :
  valid_chain [] = Raise IndexError /\ valid_chain [] <> Ok true.
Proof. split; [reflexivity|discriminate]. Qed.

(** ** What [valid_chain] looks at *)

(** C10.  A chain with a first block is valid exactly when every later
    block is linked to its predecessor: nothing is asked of the first block
    itself nor of any index field.  So the chain [odd_chain], whose first
    block has a previous hash and a proof that are not the sentinels and
    whose index fields are 10 and 7, is valid, and [resolve_conflicts]
    adopts it from a peer that reports its two blocks to a node that has
    one. *)
Theorem valid_chain_checks_links_only :
  (forall first rest,
     valid_chain (first :: rest) = Ok true <-> invariant_from first rest = true) /\
  getitem Scenario.odd_first "previous_hash" = Ok (JStr "no predecessor") /\
  getitem Scenario.odd_first "proof" = Ok (JInt 31008) /\
  getitem Scenario.odd_first "index" = Ok (JInt 10) /\
  getitem Scenario.odd_second "index" = Ok (JInt 7) /\
  valid_chain Scenario.odd_chain = Ok true /\
  resolve_conflicts
    [Response 200 (Some {| body_length := 2; body_chain := Scenario.odd_chain |})]
    Scenario.node1_with_peer
  = (Ok true, replaced Scenario.odd_chain Scenario.node1_with_peer).
Proof.
  split; [intros first rest; apply valid_chain_from_true|].
  repeat apply conj; vm_compute; reflexivity.
Qed.

(** ** Hashing *)

(** C9.  [hash] is a function of the content of the block alone: two
    blocks with the same fields, in whatever order their keys (and the keys
    of the dicts inside them) were inserted, have the same digest.  Calling
    [hash] again on a block is applying the same function to the same value;
    [hash] has no state to read or change. *)
Theorem hash_ignores_insertion_order (block1 block2 : json) :
  same_fields block1 block2 -> hash block1 = hash block2.
Proof.
  intros H. unfold hash. now rewrite (same_fields_dumps _ _ H).
Qed.

Lemma hash_ignores_insertion_order_witness :
  same_fields
    (JDict [ ("index", JInt 1); ("timestamp", JFloat "1700000000.25");
             ("transactions", JList [Scenario.alice_pays_bob]);
             ("proof", JInt 100); ("previous_hash", JStr "1") ])
    (JDict [ ("previous_hash", JStr "1"); ("proof", JInt 100);
             ("transactions",
              JList [JDict [ ("amount", JInt 10); ("recipient", JStr "B");
                             ("sender", JStr "A") ]]);
             ("timestamp", JFloat "1700000000.25"); ("index", JInt 1) ]) /\
  hash (JDict [ ("index", JInt 1); ("timestamp", JFloat "1700000000.25");
                ("transactions", JList [Scenario.alice_pays_bob]);
                ("proof", JInt 100); ("previous_hash", JStr "1") ])
  = hash (JDict [ ("previous_hash", JStr "1"); ("proof", JInt 100);
                  ("transactions",
                   JList [JDict [ ("amount", JInt 10); ("recipient", JStr "B");
                                  ("sender", JStr "A") ]]);
                  ("timestamp", JFloat "1700000000.25"); ("index", JInt 1) ]).
Proof.
  assert (same_fields Scenario.alice_pays_bob
            (JDict [ ("amount", JInt 10); ("recipient", JStr "B");
                     ("sender", JStr "A") ])) as Htx.
  { apply (same_fields_reorder
             [ ("sender", JStr "A"); ("recipient", JStr "B"); ("amount", JInt 10) ]
             (rev [ ("sender", JStr "A"); ("recipient", JStr "B");
                    ("amount", JInt 10) ]));
      [apply Permutation_rev|reflexivity]. }
  assert (forall k v,
            lookup k [ ("index", JInt 1); ("timestamp", JFloat "1700000000.25");
                       ("transactions", JList [Scenario.alice_pays_bob]);
                       ("proof", JInt 100); ("previous_hash", JStr "1") ] = Some v ->
            (k = "transactions" /\ v = JList [Scenario.alice_pays_bob]) \/
            (k <> "transactions" /\ well_formed v = true /\
             lookup k [ ("previous_hash", JStr "1"); ("proof", JInt 100);
                        ("transactions",
                         JList [JDict [ ("amount", JInt 10); ("recipient", JStr "B");
                                        ("sender", JStr "A") ]]);
                        ("timestamp", JFloat "1700000000.25"); ("index", JInt 1) ]
             = Some v)) as H1.
  { intros k v. cbn [lookup].
    repeat match goal with
           | |- context [String.eqb ?a k] =>
               destruct (String.eqb_spec a k) as [<-|?]
           end; try discriminate; intros [= <-];
      try (left; split; reflexivity);
      right; repeat split; try discriminate; try reflexivity. }
  assert (same_fields
    (JDict [ ("index", JInt 1); ("timestamp", JFloat "1700000000.25");
             ("transactions", JList [Scenario.alice_pays_bob]);
             ("proof", JInt 100); ("previous_hash", JStr "1") ])
    (JDict [ ("previous_hash", JStr "1"); ("proof", JInt 100);
             ("transactions",
              JList [JDict [ ("amount", JInt 10); ("recipient", JStr "B");
                             ("sender", JStr "A") ]]);
             ("timestamp", JFloat "1700000000.25"); ("index", JInt 1) ])) as H.
  { constructor.
    - apply distinct_NoDup. reflexivity.
    - apply distinct_NoDup. reflexivity.
    - intros k v Hl. destruct (H1 k v Hl) as [[-> ->]|[Hk [Hwf Hl2]]].
      + eexists. split; [reflexivity|]. constructor. constructor; [exact Htx|constructor].
      + exists v. split; [assumption|]. now apply same_fields_refl.
    - intros k v. cbn [lookup].
      repeat match goal with
             | |- context [String.eqb ?a k] =>
                 destruct (String.eqb_spec a k) as [<-|?]
             end; try discriminate; intros [= <-];
        eexists; (split; [reflexivity|]);
        try (apply same_fields_refl; reflexivity).
      constructor. constructor; [exact Htx|constructor]. }
  split; [exact H|].
  apply (hash_ignores_insertion_order _ _ H).
Defined.

(** ** The invariant of the chain *)

(** C3, as the code has it.  In every state that the operations reach from
    initialization, the chain keeps the invariant, provided that each direct
    call of [new_block] passes a proof that [valid_proof] accepts against
    the proof of the last block and leaves the previous hash out (or passes
    the hash of the last block): [new_transaction], [register_node],
    [resolve_conflicts] and [mine] keep the invariant by themselves. *)
Theorem invariant_of_reachable_states now ops self :
  run_all ops (init now) = Some self ->
  by_rule ops (init now) = true ->
  invariant (chain self) = true.
Proof.
  intros Hrun Hrule. now apply (run_all_invariant ops (init now) self).
Qed.

Lemma invariant_of_reachable_states_witness :
  exists self,
    run_all Scenario.session Scenario.node1 = Some self /\
    by_rule Scenario.session Scenario.node1 = true /\
    List.length (chain self) = 4%nat /\
    invariant (chain self) = true.
Proof.
  eexists. split; [vm_compute; reflexivity|].
  split; [vm_compute; reflexivity|]. split; [reflexivity|].
  apply (invariant_of_reachable_states "1700000000.25" Scenario.session);
    vm_compute; reflexivity.
Defined.

(** C3, as it is stated, fails: [new_block] is one of the operations and
    takes any proof.  Sealing a block with the proof 0 on a node that has
    just started gives a chain whose second block does not answer the proof
    of the first. *)
Lemma direct_new_block_breaks_invariant :
  exists self,
    reachable self /\
    run_all [NewBlock "1700000001.0" (JInt 0) JNull] Scenario.node1 = Some self /\
    invariant (chain self) = false.
Proof.
  eexists. split; [|split; [reflexivity|vm_compute; reflexivity]].
  exists "1700000000.25", [NewBlock "1700000001.0" (JInt 0) JNull].
  reflexivity.
Qed.

(** ** Conflict resolution *)

(** C2, at an input where the code departs from it.  A node holds two
    blocks.  Its peer answers 200, reports a length of 3 and sends a chain
    of one block.  [resolve_conflicts] compares the reported length, finds
    the one-block chain valid, replaces the chain of the node by it and
    returns [True]: the chain adopted is shorter than the one given up. *)
Theorem resolve_conflicts_trusts_reported_length :
  List.length (chain Scenario.node2_with_peer) = 2%nat /\
  valid_chain (chain Scenario.node2_with_peer) = Ok true /\
  resolve_conflicts
    [Response 200 (Some {| body_length := 3;
                           body_chain := [Scenario.odd_first] |})]
    Scenario.node2_with_peer
  = (Ok true, replaced [Scenario.odd_first] Scenario.node2_with_peer) /\
  (List.length [Scenario.odd_first] < List.length (chain Scenario.node2_with_peer))%nat.
Proof.
  split; [reflexivity|]. split; [vm_compute; reflexivity|].
  split; [vm_compute; reflexivity|]. vm_compute. lia.
Qed.

(** C5, as the code has it.  A peer that answers with a status other than
    200 is passed over: the call gives what it gives without that peer.  And
    the call is all or nothing: it leaves the state as it was, or it
    returns [True] having replaced the whole chain by the chain of a peer
    that answered 200, reported more blocks than the node has and passed
    [valid_chain]; whenever it does not return [True] (it returns [False],
    or an exception ends it) the state is as it was.  A peer whose fetch
    raises is not passed over: the call ends with an exception. *)
Theorem resolve_conflicts_skips_and_is_atomic replies self :
  (forall pre status_code body post,
     replies = pre ++ Response status_code body :: post ->
     status_code <> 200 ->
     resolve_conflicts replies self = resolve_conflicts (pre ++ post) self) /\
  (snd (resolve_conflicts replies self) = self \/
   exists b, In (Response 200 (Some b)) replies /\
             valid_chain (body_chain b) = Ok true /\
             Z.of_nat (List.length (chain self)) < body_length b /\
             resolve_conflicts replies self
             = (Ok true, replaced (body_chain b) self)) /\
  (fst (resolve_conflicts replies self) <> Ok true ->
   snd (resolve_conflicts replies self) = self) /\
  (forall pre post,
     replies = pre ++ Unreachable :: post ->
     exists e, resolve_conflicts replies self = (Raise e, self)).
Proof.
  split; [|split; [|split]]; cycle 3.
  { intros pre post ->. unfold resolve_conflicts.
    destruct (resolve_loop_unreachable pre post
                (Z.of_nat (List.length (chain self))) None) as [e ->].
    now exists e. }
  - intros pre status_code body post -> Hne. unfold resolve_conflicts.
    now rewrite resolve_loop_skip.
  - destruct (resolve_conflicts_cases replies self) as [[H _]|H]; tauto.
  - destruct (resolve_conflicts_cases replies self) as [[H _]|[b [_ [_ [_ H]]]]];
      [tauto|].
    rewrite H. intros Hne. now contradiction Hne.
Qed.

Lemma resolve_conflicts_skips_and_is_atomic_witness :
  503 <> 200 /\
  resolve_conflicts [Response 503 None; full_chain Scenario.node2]
    Scenario.node1_with_peer
  = resolve_conflicts [full_chain Scenario.node2] Scenario.node1_with_peer /\
  resolve_conflicts [Response 503 None; full_chain Scenario.node2]
    Scenario.node1_with_peer
  = (Ok true, replaced (chain Scenario.node2) Scenario.node1_with_peer).
Proof.
  split; [lia|]. split.
  - apply (proj1 (resolve_conflicts_skips_and_is_atomic
                    [Response 503 None; full_chain Scenario.node2]
                    Scenario.node1_with_peer)
             [] 503 None [full_chain Scenario.node2]); [reflexivity|lia].
  - vm_compute. reflexivity.
Defined.

(** C5, as it is stated, fails: a peer whose fetch raises is not skipped.
    With an unreachable peer before a peer whose chain qualifies, the call
    ends with the exception and the second peer is never asked; without the
    unreachable peer the same call adopts the chain of the second. *)
Lemma unreachable_peer_aborts_resolution :
  resolve_conflicts [Unreachable; full_chain Scenario.node2]
    Scenario.node1_with_peer
  = (Raise ConnectionError, Scenario.node1_with_peer) /\
  resolve_conflicts [full_chain Scenario.node2] Scenario.node1_with_peer
  = (Ok true, replaced (chain Scenario.node2) Scenario.node1_with_peer).
Proof. split; vm_compute; reflexivity. Qed.

(** ** Validation and changed blocks *)

(** C6, as the code has it.  A chain that has a first block and keeps the
    invariant is valid.  [valid_chain] returns [False] once one block of
    such a chain is changed in one of these ways: the previous hash of a
    block after the first gets another value; the proof of a block after the
    first, the last block too, gets a value that does not answer the proof
    of its predecessor; the proof of a block that has a successor gets a
    value that the proof of the successor does not answer; any field (the
    previous hash, the proof, the transactions), of the first block too, of
    a block that has a successor gets a value with which the block has
    another digest than the block it replaces.  A change that none of these
    checks reads is not promised to be seen. *)
Theorem valid_chain_rejects_changed_blocks chain :
  chain <> [] ->
  invariant chain = true ->
  valid_chain chain = Ok true /\
  (forall pre d post v,
     chain = pre ++ JDict d :: post ->
     pre <> [] ->
     lookup "previous_hash" d <> Some v ->
     valid_chain (pre ++ JDict (setitem "previous_hash" v d) :: post)
     = Ok false) /\
  (forall pre prev d post last_proof v,
     chain = pre ++ prev :: JDict d :: post ->
     getitem prev "proof" = Ok last_proof ->
     valid_proof last_proof v = false ->
     valid_chain (pre ++ prev :: JDict (setitem "proof" v d) :: post)
     = Ok false) /\
  (forall pre d next post next_proof v,
     chain = pre ++ JDict d :: next :: post ->
     getitem next "proof" = Ok next_proof ->
     valid_proof v next_proof = false ->
     valid_chain (pre ++ JDict (setitem "proof" v d) :: next :: post)
     = Ok false) /\
  (forall pre d post k v,
     chain = pre ++ JDict d :: post ->
     post <> [] ->
     hash (JDict (setitem k v d)) <> hash (JDict d) ->
     valid_chain (pre ++ JDict (setitem k v d) :: post) = Ok false).
Proof.
  intros Hne Hinv. split; [now apply valid_chain_true|]. clear Hne.
  split; [|split; [|split]].
  - intros [|first pre] d post v -> Hpre Hv; [congruence|]. clear Hpre.
    cbn [invariant app] in Hinv. rewrite invariant_from_app in Hinv.
    apply andb_prop in Hinv as [Hpre Hrest].
    cbn [invariant_from] in Hrest. apply andb_prop in Hrest as [Hl _].
    apply linked_elim in Hl as [Hph _]. apply getitem_dict in Hph.
    cbn [app valid_chain].
    rewrite (valid_chain_from_app _ _ _ Hpre), valid_chain_from_cons.
    unfold getitem at 1. rewrite lookup_setitem_same. unfold bind.
    destruct (is_str v (hash (last pre first))) eqn:E; [|reflexivity].
    apply is_str_true in E. subst v. now contradiction Hv.
  - intros pre prev d post last_proof v -> Hlp Hv.
    destruct (invariant_at _ _ _ _ Hinv) as [Hl [Hwalk _]].
    rewrite Hwalk, (changed_block_step _ _ _ _ _ Hl Hlp)
      by (apply lookup_setitem_other; discriminate).
    unfold getitem at 1. rewrite lookup_setitem_same. unfold bind.
    now rewrite Hv.
  - intros pre d next post next_proof v -> Hnp Hv.
    assert (getitem (JDict (setitem "proof" v d)) "proof" = Ok v) as Hp'
      by (unfold getitem; now rewrite lookup_setitem_same).
    destruct pre as [|first pre].
    + cbn [invariant app invariant_from] in Hinv.
      apply andb_prop in Hinv as [Hl _]. cbn [app valid_chain].
      exact (changed_proof_next _ _ _ _ _ _ Hl Hp' Hnp Hv).
    + destruct (@exists_last _ (first :: pre)) as [pre' [prev E]];
        [discriminate|].
      rewrite E in Hinv |- *. rewrite <- !app_assoc in Hinv |- *.
      cbn [app] in Hinv |- *.
      destruct (invariant_at _ _ _ _ Hinv) as [Hl [Hwalk Hrest]].
      cbn [invariant_from] in Hrest. apply andb_prop in Hrest as [Hnext _].
      destruct (linked_elim _ _ Hl) as [_ [lp [p [Hlp _]]]].
      rewrite Hwalk, (changed_block_step _ _ _ _ _ Hl Hlp)
        by (apply lookup_setitem_other; discriminate).
      rewrite Hp'. unfold bind.
      destruct (valid_proof lp v); [|reflexivity]. cbn [negb].
      exact (changed_proof_next _ _ _ _ _ _ Hnext Hp' Hnp Hv).
  - intros pre d [|next post] k v -> Hpost Hh; [congruence|]. clear Hpost.
    destruct pre as [|first pre].
    + cbn [invariant app invariant_from] in Hinv.
      apply andb_prop in Hinv as [Hl _].
      cbn [app valid_chain]. now apply (successor_rejects (JDict d)).
    + destruct (@exists_last _ (first :: pre)) as [pre' [prev E]];
        [discriminate|].
      rewrite E in Hinv |- *. rewrite <- !app_assoc in Hinv |- *.
      cbn [app] in Hinv |- *.
      destruct (invariant_at _ _ _ _ Hinv) as [Hl [Hwalk Hrest]].
      cbn [invariant_from] in Hrest. apply andb_prop in Hrest as [Hnext _].
      destruct (linked_elim _ _ Hl) as [Hph [lp [p [Hlp [Hp _]]]]].
      apply getitem_dict in Hph. rewrite Hwalk.
      destruct (String.eqb_spec k "previous_hash") as [->|Hk].
      * rewrite valid_chain_from_cons. unfold getitem at 1.
        rewrite lookup_setitem_same. unfold bind.
        destruct (is_str v (hash prev)) eqn:Ev; [|reflexivity].
        apply is_str_true in Ev. subst v. exfalso. apply Hh.
        now rewrite (setitem_same _ _ _ Hph).
      * rewrite (changed_block_step _ _ _ _ _ Hl Hlp)
          by (apply lookup_setitem_other; congruence).
        destruct (getitem (JDict (setitem k v d)) "proof") as [p'| |] eqn:Hp'.
        -- unfold bind. destruct (valid_proof lp p'); [|reflexivity].
           now apply (successor_rejects (JDict d)).
        -- exfalso. unfold getitem in Hp'.
           destruct (String.eqb_spec k "proof") as [->|Hkp].
           ++ now rewrite lookup_setitem_same in Hp'.
           ++ rewrite (lookup_setitem_other _ _ _ _ (not_eq_sym Hkp)) in Hp'.
              apply getitem_dict in Hp. now rewrite Hp in Hp'.
        -- exfalso. unfold getitem in Hp'.
           destruct (lookup "proof" (setitem k v d)); discriminate.
Qed.

Lemma valid_chain_rejects_changed_blocks_witness :
  chain Scenario.node2 <> [] /\
  invariant (chain Scenario.node2) = true /\
  valid_chain (chain Scenario.node2) = Ok true /\
  valid_chain
    [Scenario.genesis;
     JDict (setitem "previous_hash" (JStr "1") Scenario.second_fields)]
  = Ok false /\
  valid_chain
    [Scenario.genesis;
     JDict (setitem "proof" (JInt 0) Scenario.second_fields)]
  = Ok false /\
  valid_chain
    [JDict (setitem "proof" (JInt 101) Scenario.genesis_fields);
     JDict Scenario.second_fields]
  = Ok false /\
  valid_chain
    [JDict (setitem "previous_hash" (JStr "2") Scenario.genesis_fields);
     JDict Scenario.second_fields]
  = Ok false.
Proof.
  assert (chain Scenario.node2 <> []) as Hne
    by (intros H; vm_compute in H; discriminate).
  assert (invariant (chain Scenario.node2) = true) as Hinv
    by (vm_compute; reflexivity).
  destruct (valid_chain_rejects_changed_blocks _ Hne Hinv)
    as [Hv [Hlink [Hproof [Hnext Hother]]]].
  repeat apply conj; try assumption.
  - apply (Hlink [Scenario.genesis] Scenario.second_fields [] (JStr "1"));
      [vm_compute; reflexivity|discriminate|].
    intros H; vm_compute in H; discriminate.
  - apply (Hproof [] Scenario.genesis Scenario.second_fields [] (JInt 100)
             (JInt 0));
      vm_compute; reflexivity.
  - apply (Hnext [] Scenario.genesis_fields (JDict Scenario.second_fields) []
             (JInt 35293) (JInt 101));
      vm_compute; reflexivity.
  - apply (Hother [] Scenario.genesis_fields [JDict Scenario.second_fields]
             "previous_hash" (JStr "2"));
      [vm_compute; reflexivity|discriminate|].
    intros H; vm_compute in H; discriminate.
Defined.

(** C6, as it is stated, fails twice.  The empty chain keeps the invariant
    and [valid_chain] raises on it.  And in the chain of two blocks of
    [node2], the transactions of the second block can be replaced (here by
    none at all) without [valid_chain] seeing it: no block hashes the
    last. *)
Lemma last_block_transactions_unchecked :
  (invariant [] = true /\ valid_chain [] <> Ok true) /\
  chain Scenario.node2 = [Scenario.genesis; JDict Scenario.second_fields] /\
  invariant (chain Scenario.node2) = true /\
  lookup "transactions" Scenario.second_fields
  = Some (JList [Scenario.alice_pays_bob]) /\
  valid_chain
    [Scenario.genesis;
     JDict (setitem "transactions" (JList []) Scenario.second_fields)]
  = Ok true.
Proof.
  split; [split; [reflexivity|discriminate]|].
  repeat apply conj; vm_compute; reflexivity.
Qed.

(** ** Transactions and blocks *)

(** X22.  [new_transaction] appends the transaction to the end of the
    buffer and leaves the chain as it is; it returns the index field of the
    last block plus 1.  That is the length of the chain plus 1 in every
    state whose last block has the length of the chain as its index, and so
    in every state reached from initialization without taking the chain of
    a peer; on the chain of a node that has just started it is 2. *)
Theorem new_transaction_returns_next_index sender recipient amount self :
  (index_is_length (chain self) ->
   new_transaction sender recipient amount self
   = (Ok (JInt (Z.of_nat (List.length (chain self)) + 1)),
      {| chain := chain self;
         current_transactions :=
           current_transactions self ++
             [JDict [ ("sender", sender); ("recipient", recipient);
                      ("amount", amount) ]];
         nodes := nodes self |})) /\
  ((exists now ops,
      forallb local ops = true /\ run_all ops (init now) = Some self) ->
   index_is_length (chain self)) /\
  (forall now,
     fst (new_transaction sender recipient amount (init now)) = Ok (JInt 2)).
Proof.
  split; [|split].
  - intros [last_block [Hlast Hindex]]. unfold new_transaction.
    cbn [chain]. rewrite Hlast. unfold bind. rewrite Hindex. reflexivity.
  - intros [now [ops [Hlocal Hrun]]].
    apply (run_all_index_is_length ops (init now) self Hlocal Hrun).
    apply index_is_length_init.
  - reflexivity.
Qed.

Lemma new_transaction_returns_next_index_witness :
  (exists now ops,
     forallb local ops = true /\ run_all ops (init now) = Some Scenario.node2) /\
  index_is_length (chain Scenario.node2) /\
  fst (new_transaction (JStr "C") (JStr "D") (JInt 1) Scenario.node2)
  = Ok (JInt 3).
Proof.
  assert (exists now ops,
            forallb local ops = true /\
            run_all ops (init now) = Some Scenario.node2) as Hreach.
  { exists "1700000000.25",
      [ NewTransaction (JStr "A") (JStr "B") (JInt 10);
        NewBlock "1700000090.5" (JInt 35293) JNull ].
    split; reflexivity. }
  assert (index_is_length (chain Scenario.node2)) as Hindex
    by exact (proj1 (proj2 (new_transaction_returns_next_index
                              (JStr "C") (JStr "D") (JInt 1) Scenario.node2))
                Hreach).
  repeat apply conj; try assumption.
  rewrite (proj1 (new_transaction_returns_next_index
                    (JStr "C") (JStr "D") (JInt 1) Scenario.node2) Hindex).
  reflexivity.
Defined.

(** C7, at an input where the code departs from it.  A node with one
    registered peer has taken from it a valid chain of two blocks whose last
    block has 7 as its index field.  [new_transaction] queues the
    transaction and returns 8, the index field of the last block plus 1.
    The length of the chain plus 1 is 3, and 3 is the index of the block in
    which [mine] then seals this transaction: the number returned is not
    the index of the block that holds the transaction. *)
Theorem new_transaction_after_adoption :
  exists self,
    reachable self /\
    List.length (chain self) = 2%nat /\
    let tx := App.transaction (JStr "A") (JStr "B") (JInt 10) in
    let queued := new_transaction (JStr "A") (JStr "B") (JInt 10) self in
    fst queued = Ok (JInt 8) /\
    current_transactions (snd queued) = [tx] /\
    exists response self' block,
      mine 40 Cases.miner "1700000200.0" (snd queued)
      = Some (Ok response, self') /\
      chain self' = chain self ++ [block] /\
      getitem block "index" = Ok (JInt 3) /\
      getitem block "transactions" = Ok (JList [tx; reward Cases.miner]).
Proof.
  exists (replaced Scenario.odd_chain Scenario.node1_with_peer).
  split; [|split; [vm_compute; reflexivity|]].
  - exists "1700000000.25",
      [ RegisterNode Scenario.peer;
        ResolveConflicts
          [Response 200 (Some {| body_length := 2;
                                 body_chain := Scenario.odd_chain |})] ].
    vm_compute. reflexivity.
  - cbv zeta. split; [vm_compute; reflexivity|].
    split; [vm_compute; reflexivity|].
    let r := eval vm_compute in
               (mine 40 Cases.miner "1700000200.0"
                  (snd (new_transaction (JStr "A") (JStr "B") (JInt 10)
                          (replaced Scenario.odd_chain
                             Scenario.node1_with_peer)))) in
    assert (mine 40 Cases.miner "1700000200.0"
              (snd (new_transaction (JStr "A") (JStr "B") (JInt 10)
                      (replaced Scenario.odd_chain
                         Scenario.node1_with_peer))) = r) as Hr
      by (vm_compute; reflexivity).
    rewrite Hr. do 3 eexists. split; [reflexivity|].
    split; [reflexivity|]. split; reflexivity.
Qed.

(** C8, as the code has it.  On a state with a non-empty chain,
    [new_block] appends and returns a block whose transactions are the
    pending buffer in order and whose index is the length of the old chain
    plus 1; its previous hash is the value passed when that value is truthy
    (a non-empty string), and the hash of the old last block otherwise;
    afterwards the buffer is empty.  No other operation appends to the
    chain: [new_transaction] and [register_node] leave it as it is, [mine]
    leaves it as it is or appends the one block that [new_block] seals, and
    [resolve_conflicts] leaves it as it is or replaces it by the chain of a
    peer. *)
Theorem new_block_appends_sealed_block now proof previous_hash self :
  chain self <> [] ->
  exists last_block,
    last_item (chain self) = Ok last_block /\
    let link := if truthy previous_hash then previous_hash
                else JStr (hash last_block) in
    let block := sealed_block now proof link self in
    new_block now proof previous_hash self = (Ok block, sealed block self) /\
    getitem block "transactions" = Ok (JList (current_transactions self)) /\
    getitem block "index" = Ok (JInt (Z.of_nat (List.length (chain self)) + 1)) /\
    getitem block "proof" = Ok proof /\
    getitem block "previous_hash" = Ok link /\
    chain (sealed block self) = chain self ++ [block] /\
    current_transactions (sealed block self) = [] /\
    (forall sender recipient amount,
       chain (snd (new_transaction sender recipient amount self)) = chain self) /\
    (forall netloc, chain (snd (register_node netloc self)) = chain self) /\
    (forall fuel node_identifier now' out self',
       mine fuel node_identifier now' self = Some (out, self') ->
       chain self' = chain self \/
       exists proof' b1,
         chain b1 = chain self /\
         self' = sealed (sealed_block now' (JInt proof')
                           (JStr (hash last_block)) b1) b1) /\
    (forall replies,
       chain (snd (resolve_conflicts replies self)) = chain self \/
       exists b, In (Response 200 (Some b)) replies /\
                 chain (snd (resolve_conflicts replies self)) = body_chain b).
Proof.
  intros Hne.
  assert (exists last_block, last_item (chain self) = Ok last_block)
    as [last_block Hlast].
  { destruct (chain self) as [|first rest]; [congruence|].
    eexists. apply last_item_cons. }
  exists last_block. split; [exact Hlast|]. cbv zeta.
  split; [exact (new_block_sealed _ _ _ _ _ Hlast)|].
  do 6 (split; [reflexivity|]).
  split; [intros; reflexivity|].
  split; [intros netloc; now destruct netloc|]. split.
  - intros fuel node_identifier now' out self' Hmine.
    apply mine_state in Hmine
      as [H|[lb [lp [p [b1 [Hl [_ [_ [Hc ->]]]]]]]]]; [now left|right].
    rewrite Hlast in Hl. injection Hl as <-.
    exists p, b1. split; [exact Hc|reflexivity].
  - intros replies.
    destruct (resolve_conflicts_cases replies self)
      as [[-> _]|[b [Hin [_ [_ ->]]]]]; [now left|right].
    exists b. split; [assumption|reflexivity].
Qed.

Lemma new_block_appends_sealed_block_witness :
  chain Scenario.node1 <> [] /\
  new_block "1700000090.5" (JInt 35293) JNull
    (snd (new_transaction (JStr "A") (JStr "B") (JInt 10) Scenario.node1))
  = (Ok (JDict Scenario.second_fields), Scenario.node2) /\
  current_transactions Scenario.node2 = [].
Proof.
  split; [discriminate|].
  destruct (new_block_appends_sealed_block "1700000090.5" (JInt 35293) JNull
              (snd (new_transaction (JStr "A") (JStr "B") (JInt 10)
                      Scenario.node1)))
    as [last_block [Hlast [Hnew _]]]; [discriminate|].
  split; [|reflexivity].
  rewrite Hnew. vm_compute in Hlast. injection Hlast as <-.
  vm_compute. reflexivity.
Defined.

(** C8, as it is stated, fails twice.  A previous hash that is passed but
    is the empty string is not the one the block gets: the block records
    the hash of the last block instead.  And the chain of a node grows
    without [new_block] when [resolve_conflicts] takes the longer chain of a
    peer. *)
Lemma new_block_falsy_link_and_adoption :
  (exists block,
     fst (new_block "1700000001.0" (JInt 35293) (JStr EmptyString)
            Scenario.node1) = Ok block /\
     getitem block "previous_hash" = Ok (JStr (hash Scenario.genesis)) /\
     getitem block "previous_hash" <> Ok (JStr EmptyString)) /\
  run (ResolveConflicts [full_chain Scenario.node2]) Scenario.node1_with_peer
  = Some (replaced (chain Scenario.node2) Scenario.node1_with_peer) /\
  (List.length (chain Scenario.node1_with_peer)
   < List.length (chain (replaced (chain Scenario.node2)
                           Scenario.node1_with_peer)))%nat.
Proof.
  split; [|split].
  - eexists. split; [reflexivity|]. split; [reflexivity|].
    intros H. vm_compute in H. discriminate.
  - vm_compute. reflexivity.
  - vm_compute. lia.
Qed.

(** * Further properties *)

(** ** What every reachable state has *)

Lemma sealed_chain block self : chain (sealed block self) = chain self ++ [block].
Proof. reflexivity. Qed.

Lemma run_nonempty o self self' :
  run o self = Some self' -> chain self <> [] -> chain self' <> [].
Proof.
  destruct o as [sender recipient amount|now proof previous_hash|netloc
                |replies|fuel node_identifier now]; cbn [run].
  - intros [= <-] H. exact H.
  - intros [= <-] H.
    destruct (new_block_chain now proof previous_hash self) as [E|[block E]];
      cbv zeta in E; rewrite E; [assumption|].
    rewrite sealed_chain. now destruct (chain self).
  - intros [= <-] H. now destruct netloc.
  - destruct (Nat.eqb _ _); [|discriminate]. intros [= <-] H.
    destruct (resolve_conflicts_cases replies self)
      as [[-> _]|[b [_ [Hv [_ ->]]]]]; [assumption|].
    cbn [snd replaced chain]. now apply valid_chain_true in Hv.
  - destruct (mine fuel node_identifier now self) as [[out s]|] eqn:E;
      [|discriminate].
    intros [= <-] H.
    apply mine_chain in E as [->|[last_block [block [_ [_ ->]]]]];
      [assumption|]. now destruct (chain self).
Qed.

Lemma run_all_nonempty ops : forall self self',
  run_all ops self = Some self' -> chain self <> [] -> chain self' <> [].
Proof.
  induction ops as [|o ops IH]; intros self self'.
  - now intros [= <-].
  - cbn [run_all]. destruct (run o self) as [s|] eqn:E; [|discriminate].
    intros Hrun H. apply (IH s self' Hrun). now apply (run_nonempty o self).
Qed.

Lemma last_item_nonempty l : l <> [] -> exists b, last_item l = Ok b.
Proof.
  destruct l as [|first rest]; [congruence|].
  intros _. eexists. apply last_item_cons.
Qed.

(** X1.  After initialization the chain is never empty, whatever the
    operations that follow and whatever they are given: so the last block
    can always be read, and [new_block] always seals a block (the
    [IndexError] of [self.chain[-1]] cannot arise). *)
Theorem chain_never_empty self :
  reachable self ->
  chain self <> [] /\
  (exists last_block, last_item (chain self) = Ok last_block) /\
  forall now proof previous_hash,
    exists block,
      new_block now proof previous_hash self = (Ok block, sealed block self).
Proof.
  intros [now [ops Hrun]].
  assert (chain self <> []) as Hne
    by (apply (run_all_nonempty ops (init now) self Hrun); discriminate).
  destruct (last_item_nonempty _ Hne) as [last_block Hlast].
  split; [assumption|]. split; [now exists last_block|].
  intros now' proof previous_hash. eexists.
  exact (new_block_sealed now' proof previous_hash self last_block Hlast).
Qed.

Lemma chain_never_empty_witness :
  reachable (replaced Scenario.odd_chain Scenario.node1_with_peer) /\
  chain (replaced Scenario.odd_chain Scenario.node1_with_peer) <> [] /\
  exists last_block,
    last_item (chain (replaced Scenario.odd_chain Scenario.node1_with_peer))
    = Ok last_block.
Proof.
  assert (reachable (replaced Scenario.odd_chain Scenario.node1_with_peer))
    as Hreach.
  { exists "1700000000.25",
      [ RegisterNode Scenario.peer;
        ResolveConflicts
          [Response 200 (Some {| body_length := 2;
                                 body_chain := Scenario.odd_chain |})] ].
    vm_compute. reflexivity. }
  split; [exact Hreach|].
  destruct (chain_never_empty _ Hreach) as [Hne [Hlast _]].
  split; assumption.
Defined.

(** ** What the local operations keep *)

Lemma run_append_only o self self' :
  local o = true ->
  run o self = Some self' ->
  exists suffix, chain self' = chain self ++ suffix.
Proof.
  destruct o as [sender recipient amount|now proof previous_hash|netloc
                |replies|fuel node_identifier now]; cbn [run local];
    try discriminate; intros _.
  - intros [= <-]. exists []. now rewrite app_nil_r.
  - intros [= <-].
    destruct (new_block_chain now proof previous_hash self) as [E|[block E]];
      cbv zeta in E; rewrite E.
    + exists []. now rewrite app_nil_r.
    + now exists [block].
  - intros [= <-]. exists []. rewrite app_nil_r. now destruct netloc.
  - destruct (mine fuel node_identifier now self) as [[out s]|] eqn:E;
      [|discriminate].
    intros [= <-].
    apply mine_chain in E as [->|[last_block [block [_ [_ ->]]]]].
    + exists []. now rewrite app_nil_r.
    + now exists [block].
Qed.

Lemma run_all_append_only ops : forall self self',
  forallb local ops = true ->
  run_all ops self = Some self' ->
  exists suffix, chain self' = chain self ++ suffix.
Proof.
  induction ops as [|o ops IH]; intros self self'.
  - intros _ [= <-]. exists []. now rewrite app_nil_r.
  - cbn [forallb run_all]. intros Hl. apply andb_prop in Hl as [Ho Hops].
    destruct (run o self) as [s|] eqn:E; [|discriminate].
    intros Hrun.
    destruct (run_append_only o self s Ho E) as [suffix1 E1].
    destruct (IH s self' Hops Hrun) as [suffix2 E2].
    exists (suffix1 ++ suffix2). now rewrite E2, E1, app_assoc.
Qed.

(** X2.  The chain is append-only under the operations that do not take
    the chain of a peer: whatever [new_transaction], [new_block],
    [register_node] and [mine] do, in whatever order, the blocks that were
    in the chain stay in it, unchanged and in place, and the chain is never
    shorter afterwards. *)
Theorem local_operations_append_only ops self self' :
  forallb local ops = true ->
  run_all ops self = Some self' ->
  (exists suffix, chain self' = chain self ++ suffix) /\
  (List.length (chain self) <= List.length (chain self'))%nat /\
  forall i block,
    nth_error (chain self) i = Some block ->
    nth_error (chain self') i = Some block.
Proof.
  intros Hlocal Hrun.
  destruct (run_all_append_only ops self self' Hlocal Hrun) as [suffix E].
  split; [now exists suffix|]. rewrite E. split.
  - rewrite length_app. lia.
  - intros i block H. rewrite nth_error_app1; [assumption|].
    apply nth_error_Some. congruence.
Qed.

Lemma local_operations_append_only_witness :
  forallb local
    [ NewTransaction (JStr "A") (JStr "B") (JInt 10);
      NewBlock "1700000090.5" (JInt 35293) JNull ] = true /\
  run_all
    [ NewTransaction (JStr "A") (JStr "B") (JInt 10);
      NewBlock "1700000090.5" (JInt 35293) JNull ] Scenario.node1
  = Some Scenario.node2 /\
  nth_error (chain Scenario.node2) 0 = Some Scenario.genesis.
Proof.
  assert (forallb local
            [ NewTransaction (JStr "A") (JStr "B") (JInt 10);
              NewBlock "1700000090.5" (JInt 35293) JNull ] = true) as Hlocal
    by reflexivity.
  assert (run_all
            [ NewTransaction (JStr "A") (JStr "B") (JInt 10);
              NewBlock "1700000090.5" (JInt 35293) JNull ] Scenario.node1
          = Some Scenario.node2) as Hrun by reflexivity.
  split; [exact Hlocal|]. split; [exact Hrun|].
  apply (proj2 (proj2 (local_operations_append_only _ _ _ Hlocal Hrun)) 0%nat).
  reflexivity.
Defined.

Lemma indexed_snoc chain block :
  indexed chain ->
  getitem block "index" = Ok (JInt (Z.of_nat (List.length chain) + 1)) ->
  indexed (chain ++ [block]).
Proof.
  intros Hc Hb i b Hi.
  destruct (Nat.lt_ge_cases i (List.length chain)) as [Hlt|Hge].
  - rewrite nth_error_app1 in Hi by assumption. now apply Hc.
  - rewrite nth_error_app2 in Hi by assumption.
    destruct (i - List.length chain)%nat as [|k] eqn:E.
    + injection Hi as <-. replace i with (List.length chain) by lia.
      assumption.
    + destruct k; discriminate.
Qed.

Lemma indexed_sealed now proof link self :
  indexed (chain self) ->
  indexed (chain (sealed (sealed_block now proof link self) self)).
Proof.
  intros H. rewrite sealed_chain. now apply indexed_snoc.
Qed.

Lemma run_indexed o self self' :
  local o = true ->
  run o self = Some self' ->
  indexed (chain self) ->
  indexed (chain self').
Proof.
  destruct o as [sender recipient amount|now proof previous_hash|netloc
                |replies|fuel node_identifier now]; cbn [run local];
    try discriminate; intros _.
  - intros [= <-] H. exact H.
  - intros [= <-] H. unfold new_block.
    destruct (truthy previous_hash); [now apply indexed_sealed|].
    destruct (last_item (chain self)); try exact H.
    now apply indexed_sealed.
  - intros [= <-] H. now destruct netloc.
  - destruct (mine fuel node_identifier now self) as [[out s]|] eqn:E;
      [|discriminate].
    intros [= <-] H.
    apply mine_state in E as [->|[lb [lp [p [b1 [_ [_ [_ [Hc ->]]]]]]]]];
      [assumption|].
    apply indexed_sealed. now rewrite Hc.
Qed.

Lemma run_all_indexed ops : forall self self',
  forallb local ops = true ->
  run_all ops self = Some self' ->
  indexed (chain self) ->
  indexed (chain self').
Proof.
  induction ops as [|o ops IH]; intros self self'.
  - now intros _ [= <-].
  - cbn [forallb run_all]. intros Hl. apply andb_prop in Hl as [Ho Hops].
    destruct (run o self) as [s|] eqn:E; [|discriminate].
    intros Hrun H. apply (IH s self' Hops Hrun).
    now apply (run_indexed o self).
Qed.

(** X3.  On a node that never took the chain of a peer, the index field of
    every block is the position of the block in the chain, counted from 1:
    [new_block], also when [mine] calls it, numbers the block it seals by
    the length of the chain. *)
Theorem local_blocks_carry_their_position now ops self :
  forallb local ops = true ->
  run_all ops (init now) = Some self ->
  forall i block,
    nth_error (chain self) i = Some block ->
    getitem block "index" = Ok (JInt (Z.of_nat i + 1)).
Proof.
  intros Hlocal Hrun.
  apply (run_all_indexed ops (init now) self Hlocal Hrun).
  intros [|[|i]] block; [|discriminate|discriminate].
  now intros [= <-].
Qed.

Lemma local_blocks_carry_their_position_witness :
  nth_error (chain Scenario.node2) 1 = Some (JDict Scenario.second_fields) /\
  getitem (JDict Scenario.second_fields) "index" = Ok (JInt 2).
Proof.
  assert (nth_error (chain Scenario.node2) 1
          = Some (JDict Scenario.second_fields)) as Hnth
    by (vm_compute; reflexivity).
  split; [exact Hnth|].
  apply (local_blocks_carry_their_position "1700000000.25"
           [ NewTransaction (JStr "A") (JStr "B") (JInt 10);
             NewBlock "1700000090.5" (JInt 35293) JNull ]
           Scenario.node2 eq_refl eq_refl 1%nat _ Hnth).
Defined.

(** ** Mining *)

Lemma sealed_block_response now proof link self :
  (index <- getitem (sealed_block now proof link self) "index" ;;
   transactions <- getitem (sealed_block now proof link self) "transactions" ;;
   proof' <- getitem (sealed_block now proof link self) "proof" ;;
   previous_hash <- getitem (sealed_block now proof link self) "previous_hash" ;;
   Ok (JDict [ ("message", JStr "New Block Forged");
               ("index", index);
               ("transactions", transactions);
               ("proof", proof');
               ("previous_hash", previous_hash) ]))
  = Ok (JDict [ ("message", JStr "New Block Forged");
                ("index", JInt (Z.of_nat (List.length (chain self)) + 1));
                ("transactions", JList (current_transactions self));
                ("proof", proof);
                ("previous_hash", link) ]).
Proof. reflexivity. Qed.

Lemma mine_unfold fuel node_identifier now self last_block last_proof :
  last_item (chain self) = Ok last_block ->
  getitem last_block "proof" = Ok last_proof ->
  mine fuel node_identifier now self =
  match proof_of_work fuel last_proof with
  | None => None
  | Some proof =>
      let b1 := App.queued (reward node_identifier) self in
      match (index <- getitem last_block "index" ;; add_one index) with
      | Ok _ =>
          Some (Ok (JDict [ ("message", JStr "New Block Forged");
                            ("index", JInt (Z.of_nat (List.length (chain self)) + 1));
                            ("transactions", JList (current_transactions b1));
                            ("proof", JInt proof);
                            ("previous_hash", JStr (hash last_block)) ]),
                sealed (sealed_block now (JInt proof) (JStr (hash last_block)) b1) b1)
      | Raise e => Some (Raise e, b1)
      | Unmodelled => Some (Unmodelled, b1)
      end
  end.
Proof.
  intros Hlast Hproof. unfold mine. rewrite Hlast. unfold bind at 1.
  rewrite Hproof. destruct (proof_of_work fuel last_proof) as [proof|];
    [|reflexivity].
  unfold new_transaction. cbn [chain]. rewrite Hlast. unfold bind at 1.
  cbv zeta.
  destruct (index <- getitem last_block "index" ;; add_one index)
    as [i|e|]; try reflexivity.
  assert (last_item (chain (App.queued (reward node_identifier) self))
          = Ok last_block) as Hlast1 by exact Hlast.
  pose proof (new_block_sealed now (JInt proof) JNull _ last_block Hlast1) as Hnb.
  cbv zeta in Hnb. cbn [truthy] in Hnb.
  unfold App.queued, reward, App.transaction in Hnb |- *.
  rewrite Hnb. rewrite sealed_block_response. reflexivity.
Qed.

(** X4.  Where the last block has a proof and an integer index and some
    proof from 0 on answers its proof, [mine] ends as soon as its fuel
    allows: it seals one block, numbered by the length of the chain, linked
    to the last block by its hash, carrying the smallest valid proof and
    the pending transactions in their order followed by the reward
    transaction (sender ["0"], amount 1, to this node); the buffer is empty
    afterwards and the response repeats the fields of the block.  With less
    fuel the search is still running. *)
Theorem mine_seals_pending_then_reward
  node_identifier now self last_block last_proof n x :
  last_item (chain self) = Ok last_block ->
  getitem last_block "proof" = Ok last_proof ->
  getitem last_block "index" = Ok (JInt n) ->
  0 <= x ->
  valid_proof last_proof (JInt x) = true ->
  exists m,
    0 <= m <= x /\
    valid_proof last_proof (JInt m) = true /\
    (forall y, 0 <= y < m -> valid_proof last_proof (JInt y) = false) /\
    forall fuel,
      mine fuel node_identifier now self =
      if (Z.to_nat m <? fuel)%nat then
        let index := JInt (Z.of_nat (List.length (chain self)) + 1) in
        let transactions :=
          JList (current_transactions self ++ [reward node_identifier]) in
        let link := JStr (hash last_block) in
        Some (Ok (JDict [ ("message", JStr "New Block Forged");
                          ("index", index);
                          ("transactions", transactions);
                          ("proof", JInt m);
                          ("previous_hash", link) ]),
              {| chain :=
                   chain self ++
                     [JDict [ ("index", index);
                              ("timestamp", JFloat now);
                              ("transactions", transactions);
                              ("proof", JInt m);
                              ("previous_hash", link) ]];
                 current_transactions := [];
                 nodes := nodes self |})
      else None.
Proof.
  intros Hlast Hproof Hindex Hx Hv.
  destruct (first_valid_proof _ _ Hx Hv) as [m [Hm [Hvm Hleast]]].
  exists m. split; [lia|]. split; [assumption|]. split; [assumption|].
  intros fuel. rewrite (mine_unfold _ _ _ _ _ _ Hlast Hproof).
  unfold proof_of_work.
  rewrite (proof_of_work_from_spec _ m Hvm fuel 0) by (try lia; assumption).
  rewrite Z.sub_0_r. destruct (Z.to_nat m <? fuel)%nat; [|reflexivity].
  rewrite Hindex. reflexivity.
Qed.

Lemma mine_seals_pending_then_reward_witness :
  exists self',
    mine 40 Cases.miner "1700000200.0"
      (replaced Scenario.odd_chain
         (App.queued Scenario.alice_pays_bob Scenario.node1_with_peer))
    = Some (Ok (JDict [ ("message", JStr "New Block Forged");
                        ("index", JInt 3);
                        ("transactions",
                         JList [Scenario.alice_pays_bob; reward Cases.miner]);
                        ("proof", JInt 26);
                        ("previous_hash", JStr (hash Scenario.odd_second)) ]),
            self') /\
    List.length (chain self') = 3%nat /\ current_transactions self' = [].
Proof.
  assert (valid_proof (JInt 2699) (JInt 26) = true) as H26
    by (vm_compute; reflexivity).
  assert (0 <= 26) as Hpos by lia.
  destruct (mine_seals_pending_then_reward Cases.miner "1700000200.0"
              (replaced Scenario.odd_chain
                 (App.queued Scenario.alice_pays_bob Scenario.node1_with_peer))
              Scenario.odd_second (JInt 2699) 7 26
              eq_refl eq_refl eq_refl Hpos H26)
    as [m [Hm [Hvm [Hleast Hmine]]]].
  assert (proof_of_work 40 (JInt 2699) = Some 26) as Hpow
    by (vm_compute; reflexivity).
  assert (m = 26) as ->.
  { unfold proof_of_work in Hpow.
    rewrite (proof_of_work_from_spec _ m Hvm 40 0) in Hpow
      by (try lia; assumption).
    destruct (_ <? _)%nat; [now injection Hpow|discriminate]. }
  eexists. rewrite (Hmine 40%nat). split; [reflexivity|].
  split; reflexivity.
Defined.

(** X5.  A call of [mine] that ends with an exception has sealed nothing:
    the chain and the peers are as before.  The buffer is as before, or, when
    the exception came from reading the index of the last block, it holds
    the reward transaction in addition: the reward is queued before the
    index is read. *)
Theorem failed_mine_seals_nothing fuel node_identifier now self e self' :
  mine fuel node_identifier now self = Some (Raise e, self') ->
  chain self' = chain self /\
  nodes self' = nodes self /\
  (self' = self \/ self' = App.queued (reward node_identifier) self).
Proof.
  intros Hmine.
  destruct (last_item (chain self)) as [last_block|e0|] eqn:Hlast.
  2,3: unfold mine in Hmine; rewrite Hlast in Hmine;
       injection Hmine as _ <-; repeat apply conj; try reflexivity; now left.
  destruct (getitem last_block "proof") as [last_proof|e0|] eqn:Hproof.
  2,3: unfold mine in Hmine; rewrite Hlast in Hmine; unfold bind in Hmine;
       rewrite Hproof in Hmine; injection Hmine as _ <-;
       repeat apply conj; try reflexivity; now left.
  rewrite (mine_unfold _ _ _ _ _ _ Hlast Hproof) in Hmine.
  destruct (proof_of_work fuel last_proof); [|discriminate].
  cbv zeta in Hmine.
  destruct (index <- getitem last_block "index" ;; add_one index);
    try discriminate.
  injection Hmine as _ <-. repeat apply conj; try reflexivity. now right.
Qed.

Lemma failed_mine_seals_nothing_witness :
  mine 40 Cases.miner "1700000200.0" Cases.bare_node
  = Some (Raise KeyError, App.queued (reward Cases.miner) Cases.bare_node) /\
  chain (App.queued (reward Cases.miner) Cases.bare_node)
  = chain Cases.bare_node.
Proof.
  assert (mine 40 Cases.miner "1700000200.0" Cases.bare_node
          = Some (Raise KeyError,
                  App.queued (reward Cases.miner) Cases.bare_node)) as Hmine
    by (vm_compute; reflexivity).
  split; [exact Hmine|].
  exact (proj1 (failed_mine_seals_nothing _ _ _ _ _ _ Hmine)).
Defined.

(** ** Which chain conflict resolution keeps *)

(** The loop keeps the chain it started with when no reply beats
    [max_length] with a valid chain; otherwise it keeps the chain of the
    reply that reports the most blocks among those with a valid chain, the
    earliest of them when several report as many. *)
Lemma resolve_loop_selects replies : forall max_length new_chain r,
  resolve_loop replies max_length new_chain = Ok r ->
  (r = new_chain /\
   forall b, In (Response 200 (Some b)) replies ->
             valid_chain (body_chain b) = Ok true ->
             body_length b <= max_length) \/
  exists pre b post,
    replies = pre ++ Response 200 (Some b) :: post /\
    r = Some (body_chain b) /\
    valid_chain (body_chain b) = Ok true /\
    max_length < body_length b /\
    (forall b', In (Response 200 (Some b')) pre ->
                valid_chain (body_chain b') = Ok true ->
                body_length b' < body_length b) /\
    (forall b', In (Response 200 (Some b')) post ->
                valid_chain (body_chain b') = Ok true ->
                body_length b' <= body_length b).
Proof.
  induction replies as [|[|status_code body] rest IH];
    intros max_length new_chain r.
  - intros [= <-]. left. split; [reflexivity|]. intros b [].
  - discriminate.
  - rewrite resolve_loop_cons.
    (* the reply is passed over *)
    assert (resolve_loop rest max_length new_chain = Ok r ->
            (forall b, Response status_code body = Response 200 (Some b) ->
                       valid_chain (body_chain b) = Ok true ->
                       body_length b <= max_length) ->
            (r = new_chain /\
             forall b, In (Response 200 (Some b)) (Response status_code body :: rest) ->
                       valid_chain (body_chain b) = Ok true ->
                       body_length b <= max_length) \/
            exists pre b post,
              Response status_code body :: rest
              = pre ++ Response 200 (Some b) :: post /\
              r = Some (body_chain b) /\
              valid_chain (body_chain b) = Ok true /\
              max_length < body_length b /\
              (forall b', In (Response 200 (Some b')) pre ->
                          valid_chain (body_chain b') = Ok true ->
                          body_length b' < body_length b) /\
              (forall b', In (Response 200 (Some b')) post ->
                          valid_chain (body_chain b') = Ok true ->
                          body_length b' <= body_length b)) as Hskip.
    { intros H Hhere.
      apply IH in H as [[-> Hall]|[pre [b [post [-> [-> [Hv [Hlt [Hpre Hpost]]]]]]]]].
      - left. split; [reflexivity|]. intros b [E|Hin] Hv; auto.
      - right. exists (Response status_code body :: pre), b, post.
        repeat apply conj; try assumption; try reflexivity.
        intros b' [E|Hin] Hv'; [|now apply Hpre].
        specialize (Hhere b' E Hv'). lia. }
    destruct (Z.eqb_spec status_code 200) as [->|Hne].
    2: { intros H. apply (Hskip H). intros b [= E]. congruence. }
    destruct body as [b0|]; [|discriminate].
    destruct (Z.gtb_spec (body_length b0) max_length) as [Hgt|Hle].
    2: { intros H. apply (Hskip H). intros b [= <-] _. assumption. }
    unfold bind.
    destruct (valid_chain (body_chain b0)) as [[|]| |] eqn:Hv0; try discriminate.
    2: { intros H. apply (Hskip H). intros b [= <-] Hv. congruence. }
    (* the reply is kept, for now *)
    intros H. right.
    apply IH in H as [[-> Hall]|[pre [b [post [-> [-> [Hv [Hlt [Hpre Hpost]]]]]]]]].
    + exists [], b0, rest. repeat apply conj; try assumption; try reflexivity.
      intros b' [].
    + exists (Response 200 (Some b0) :: pre), b, post.
      repeat apply conj; try assumption; try reflexivity; try lia.
      intros b' [[= <-]|Hin] Hv'; [assumption|now apply Hpre].
Qed.

(** X6.  When [resolve_conflicts] returns [True], the chain it has put in
    place is the chain of one of the replies: a reply with status 200 whose
    chain is valid and whose reported length is above the length of the old
    chain.  Among the replies with a valid chain none reports more blocks,
    and none that comes earlier in the iteration reports as many: the
    longest report wins, the first seen among equals. *)
Theorem resolve_conflicts_keeps_longest_first_seen replies self self' :
  resolve_conflicts replies self = (Ok true, self') ->
  exists pre b post,
    replies = pre ++ Response 200 (Some b) :: post /\
    self' = replaced (body_chain b) self /\
    valid_chain (body_chain b) = Ok true /\
    Z.of_nat (List.length (chain self)) < body_length b /\
    (forall b', In (Response 200 (Some b')) pre ->
                valid_chain (body_chain b') = Ok true ->
                body_length b' < body_length b) /\
    (forall b', In (Response 200 (Some b')) post ->
                valid_chain (body_chain b') = Ok true ->
                body_length b' <= body_length b).
Proof.
  unfold resolve_conflicts.
  destruct (resolve_loop replies (Z.of_nat (List.length (chain self))) None)
    as [[[|first rest]|]| |] eqn:E; try discriminate.
  intros [= <-].
  apply resolve_loop_selects in E
    as [[E _]|[pre [b [post [Hr [E [Hv [Hlt [Hpre Hpost]]]]]]]]]; [discriminate|].
  injection E as E. exists pre, b, post. rewrite E.
  repeat apply conj; try assumption. reflexivity.
Qed.

Lemma resolve_conflicts_keeps_longest_first_seen_witness :
  resolve_conflicts Cases.three_replies Scenario.node1_with_peer
  = (Ok true, replaced Scenario.odd_chain Scenario.node1_with_peer) /\
  exists pre b post,
    Cases.three_replies = pre ++ Response 200 (Some b) :: post /\
    replaced Scenario.odd_chain Scenario.node1_with_peer
    = replaced (body_chain b) Scenario.node1_with_peer /\
    valid_chain (body_chain b) = Ok true.
Proof.
  assert (resolve_conflicts Cases.three_replies Scenario.node1_with_peer
          = (Ok true, replaced Scenario.odd_chain Scenario.node1_with_peer))
    as Hres by (vm_compute; reflexivity).
  split; [exact Hres|].
  destruct (resolve_conflicts_keeps_longest_first_seen _ _ _ Hres)
    as [pre [b [post [H1 [H2 [H3 _]]]]]].
  exists pre, b, post. split; [exact H1|]. split; [exact H2|exact H3].
Defined.

(** X7.  When [resolve_conflicts] returns [False], the state is the one
    before the call, and no peer qualified: every reply with status 200
    whose chain is valid reports at most as many blocks as the node has. *)
Theorem resolve_conflicts_false_no_candidate replies self self' :
  resolve_conflicts replies self = (Ok false, self') ->
  self' = self /\
  forall b, In (Response 200 (Some b)) replies ->
            valid_chain (body_chain b) = Ok true ->
            body_length b <= Z.of_nat (List.length (chain self)).
Proof.
  unfold resolve_conflicts.
  destruct (resolve_loop replies (Z.of_nat (List.length (chain self))) None)
    as [[[|first rest]|]| |] eqn:E; try discriminate; intros [= <-];
    (split; [reflexivity|]);
    apply resolve_loop_selects in E
      as [[E Hall]|[pre [b [post [Hr [E [Hv _]]]]]]];
    try assumption; try discriminate.
  injection E as E. rewrite <- E in Hv. discriminate.
Qed.

Lemma resolve_conflicts_false_no_candidate_witness :
  resolve_conflicts [full_chain Scenario.node1] Scenario.node2_with_peer
  = (Ok false, Scenario.node2_with_peer) /\
  forall b, In (Response 200 (Some b)) [full_chain Scenario.node1] ->
            valid_chain (body_chain b) = Ok true ->
            body_length b <= Z.of_nat (List.length (chain Scenario.node2_with_peer)).
Proof.
  assert (resolve_conflicts [full_chain Scenario.node1] Scenario.node2_with_peer
          = (Ok false, Scenario.node2_with_peer)) as Hres
    by (vm_compute; reflexivity).
  split; [exact Hres|].
  exact (proj2 (resolve_conflicts_false_no_candidate _ _ _ Hres)).
Defined.

Lemma resolve_conflicts_true_lengths_witness :
  (forall b, In (Response 200 (Some b)) [full_chain Scenario.node2] ->
             body_length b = Z.of_nat (List.length (body_chain b))) /\
  resolve_conflicts [full_chain Scenario.node2] Scenario.node1_with_peer
  = (Ok true, replaced (chain Scenario.node2) Scenario.node1_with_peer) /\
  valid_chain (chain (replaced (chain Scenario.node2) Scenario.node1_with_peer))
  = Ok true.
Proof.
  assert (forall b, In (Response 200 (Some b)) [full_chain Scenario.node2] ->
                    body_length b = Z.of_nat (List.length (body_chain b)))
    as Htrue.
  { intros b [[= <-]|[]]. reflexivity. }
  assert (resolve_conflicts [full_chain Scenario.node2] Scenario.node1_with_peer
          = (Ok true, replaced (chain Scenario.node2) Scenario.node1_with_peer))
    as Hres by (vm_compute; reflexivity).
  split; [exact Htrue|]. split; [exact Hres|].
  exact (proj1 (resolve_conflicts_true_lengths _ _ _ Htrue Hres)).
Defined.

(** ** How [valid_chain] ends *)

Lemma valid_chain_from_unlinked_rest prev block rest rest' :
  linked prev block = false ->
  valid_chain_from prev (block :: rest) = valid_chain_from prev (block :: rest').
Proof.
  rewrite !valid_chain_from_cons. unfold linked, bind.
  destruct (getitem block "previous_hash") as [ph| |]; try reflexivity.
  destruct (is_str ph (hash prev)); cbn [negb andb]; try reflexivity.
  destruct (getitem prev "proof") as [lp| |]; try reflexivity.
  destruct (getitem block "proof") as [p| |]; try reflexivity.
  intros ->. reflexivity.
Qed.

(** X8.  [valid_chain] stops at the first block that is not linked to its
    predecessor: what it returns (or raises) there does not depend on the
    blocks that follow, which are never read, and it is never [True]. *)
Theorem valid_chain_stops_at_first_bad_block first pre block rest rest' :
  invariant_from first pre = true ->
  linked (last pre first) block = false ->
  valid_chain (first :: pre ++ block :: rest)
  = valid_chain (first :: pre ++ block :: rest') /\
  valid_chain (first :: pre ++ block :: rest) <> Ok true.
Proof.
  intros Hpre Hbad. cbn [valid_chain].
  rewrite !(valid_chain_from_app _ _ _ Hpre). split.
  - now apply valid_chain_from_unlinked_rest.
  - now apply valid_chain_from_unlinked.
Qed.

Lemma valid_chain_stops_at_first_bad_block_witness :
  invariant_from Scenario.genesis [JDict Scenario.second_fields] = true /\
  valid_chain Scenario.broken_chain = Ok false /\
  valid_chain
    (Scenario.genesis :: [JDict Scenario.second_fields] ++
       [JDict [ ("index", JInt 3); ("timestamp", JFloat "1700000100.0");
                ("transactions", JList []); ("proof", JInt 35089);
                ("previous_hash", JStr "0000") ]])
  = valid_chain Scenario.broken_chain.
Proof.
  assert (invariant_from Scenario.genesis [JDict Scenario.second_fields] = true)
    as Hpre by (vm_compute; reflexivity).
  assert (linked (last [JDict Scenario.second_fields] Scenario.genesis)
            (JDict [ ("index", JInt 3); ("timestamp", JFloat "1700000100.0");
                     ("transactions", JList []); ("proof", JInt 35089);
                     ("previous_hash", JStr "0000") ]) = false) as Hbad
    by (vm_compute; reflexivity).
  split; [exact Hpre|]. split; [vm_compute; reflexivity|].
  assert (Scenario.broken_chain
          = Scenario.genesis :: [JDict Scenario.second_fields] ++
              JDict [ ("index", JInt 3); ("timestamp", JFloat "1700000100.0");
                      ("transactions", JList []); ("proof", JInt 35089);
                      ("previous_hash", JStr "0000") ] ::
              [ JDict [ ("index", JInt 4); ("timestamp", JFloat "1700000110.0");
                        ("transactions", JList []); ("proof", JInt 0);
                        ("previous_hash", JStr "0000") ];
                JDict [ ("index", JInt 5); ("timestamp", JFloat "1700000120.0");
                        ("transactions", JList []); ("proof", JInt 0);
                        ("previous_hash", JStr "0000") ] ]) as ->
    by (vm_compute; reflexivity).
  exact (proj1 (valid_chain_stops_at_first_bad_block _ _ _ [] _ Hpre Hbad)).
Defined.

(** X9.  Every beginning of a valid chain is a valid chain: cutting blocks
    off the end of a chain that [valid_chain] accepts, down to any block,
    leaves a chain that it accepts. *)
Theorem valid_chain_prefix pre post :
  pre <> [] ->
  valid_chain (pre ++ post) = Ok true ->
  valid_chain pre = Ok true.
Proof.
  destruct pre as [|first pre]; [congruence|]. intros _.
  cbn [app valid_chain]. rewrite !valid_chain_from_true, invariant_from_app.
  intros H. now apply andb_prop in H as [H _].
Qed.

Lemma valid_chain_prefix_witness :
  [Scenario.genesis] <> [] /\
  valid_chain ([Scenario.genesis] ++ [JDict Scenario.second_fields]) = Ok true /\
  valid_chain [Scenario.genesis] = Ok true.
Proof.
  assert ([Scenario.genesis] <> []) as Hne by discriminate.
  assert (valid_chain ([Scenario.genesis] ++ [JDict Scenario.second_fields])
          = Ok true) as Hv by (vm_compute; reflexivity).
  split; [exact Hne|]. split; [exact Hv|].
  exact (valid_chain_prefix _ _ Hne Hv).
Defined.

Lemma getitem_raises j k e :
  getitem j k = Raise e -> e = KeyError \/ e = TypeError.
Proof.
  unfold getitem. destruct j; try (intros [= <-]; now right).
  destruct (lookup k d); [discriminate|]. intros [= <-]. now left.
Qed.

Lemma valid_chain_from_raises prev rest e :
  valid_chain_from prev rest = Raise e -> e = KeyError \/ e = TypeError.
Proof.
  revert prev. induction rest as [|block rest IH]; intros prev; [discriminate|].
  rewrite valid_chain_from_cons. unfold bind.
  destruct (getitem block "previous_hash") as [ph|e1|] eqn:E1.
  - destruct (negb _); [discriminate|].
    destruct (getitem prev "proof") as [lp|e2|] eqn:E2.
    + destruct (getitem block "proof") as [p|e3|] eqn:E3.
      * destruct (negb _); [discriminate|apply IH].
      * intros [= <-]. now apply getitem_raises in E3.
      * discriminate.
    + intros [= <-]. now apply getitem_raises in E2.
    + discriminate.
  - intros [= <-]. now apply getitem_raises in E1.
  - discriminate.
Qed.

(** X10.  Where [valid_chain] raises.  It raises [IndexError] on the empty
    chain and on no other.  On a chain with a first block the loop raises at
    the first block it cannot read, whatever follows that block: past a
    prefix of linked blocks, a block that is not a dict ([TypeError]) or
    has no previous hash ([KeyError]) ends the call with that exception;
    and where the previous hash is the hash of the predecessor, so does a
    predecessor without a proof, and then a block without a proof. *)
Theorem valid_chain_raises_at_unreadable_block :
  (forall chain, valid_chain chain = Raise IndexError <-> chain = []) /\
  (forall first pre block rest e,
     invariant_from first pre = true ->
     let prev := last pre first in
     getitem block "previous_hash" = Raise e \/
     getitem block "previous_hash" = Ok (JStr (hash prev)) /\
     (getitem prev "proof" = Raise e \/
      (exists last_proof, getitem prev "proof" = Ok last_proof) /\
      getitem block "proof" = Raise e) ->
     valid_chain (first :: pre ++ block :: rest) = Raise e /\
     (e = KeyError \/ e = TypeError)).
Proof.
  split.
  - intros [|first rest]; cbn [valid_chain]; [tauto|].
    split; [|discriminate]. intros H.
    apply valid_chain_from_raises in H as [H|H]; discriminate.
  - intros first pre block rest e Hinv prev H. cbn [valid_chain].
    rewrite (valid_chain_from_app _ _ _ Hinv), valid_chain_from_cons.
    fold prev. destruct H as [H|[Hph [H|[[last_proof Hlp] H]]]].
    + rewrite H. split; [reflexivity|exact (getitem_raises _ _ _ H)].
    + rewrite Hph. unfold bind at 1. cbn [is_str].
      rewrite String.eqb_refl. cbn [negb]. rewrite H.
      split; [reflexivity|exact (getitem_raises _ _ _ H)].
    + rewrite Hph. unfold bind at 1. cbn [is_str].
      rewrite String.eqb_refl. cbn [negb]. rewrite Hlp, H.
      split; [reflexivity|exact (getitem_raises _ _ _ H)].
Qed.

Lemma valid_chain_raises_at_unreadable_block_witness :
  valid_chain
    ([Scenario.genesis; JDict Scenario.second_fields] ++
       JInt 5 :: [Scenario.odd_second])
  = Raise TypeError /\
  valid_chain
    (Scenario.genesis ::
       [] ++ JDict [ ("previous_hash", JStr (hash Scenario.genesis)) ] :: [])
  = Raise KeyError.
Proof.
  assert (invariant_from Scenario.genesis [JDict Scenario.second_fields] = true)
    as Hinv by (vm_compute; reflexivity).
  split.
  - exact (proj1 (proj2 valid_chain_raises_at_unreadable_block
                    Scenario.genesis [JDict Scenario.second_fields] (JInt 5)
                    [Scenario.odd_second] TypeError Hinv
                    (or_introl eq_refl))).
  - exact (proj1 (proj2 valid_chain_raises_at_unreadable_block
                    Scenario.genesis []
                    (JDict [ ("previous_hash", JStr (hash Scenario.genesis)) ])
                    [] KeyError eq_refl
                    (or_intror
                       (conj eq_refl
                          (or_intror
                             (conj (ex_intro _ (JInt 100) eq_refl)
                                eq_refl)))))).
Defined.

(** ** What [jsonify] keeps *)

Lemma string_leb_refl (a : string) : String.leb a a = true.
Proof. destruct (String.leb_total a a); assumption. Qed.

Lemma ascending_cons k k' tl :
  ascending (k :: k' :: tl) = String.leb k k' && ascending (k' :: tl).
Proof. reflexivity. Qed.

Section SortedItems.

Context {A : Type}.
Implicit Types (x y : string * A) (l : list (string * A)).

Lemma insert_item_ascending x l :
  ascending (map fst l) = true ->
  ascending (map fst (insert_item x l)) = true.
Proof.
  induction l as [|y l IH]; [reflexivity|].
  intros H. cbn [insert_item].
  destruct (String.leb (fst x) (fst y)) eqn:Exy.
  - cbn [map] in H |- *. now rewrite ascending_cons, Exy.
  - apply string_leb_false in Exy. destruct l as [|z l].
    + cbn [insert_item map]. now rewrite ascending_cons, Exy.
    + cbn [map] in H. rewrite ascending_cons in H.
      apply andb_prop in H as [Hyz Hl]. specialize (IH Hl).
      cbn [insert_item] in IH |- *.
      destruct (String.leb (fst x) (fst z)) eqn:Exz; cbn [map] in IH |- *.
      * now rewrite ascending_cons, Exy.
      * now rewrite ascending_cons, Hyz.
Qed.

Lemma sort_items_ascending l : ascending (map fst (sort_items l)) = true.
Proof.
  induction l as [|x l IH]; [reflexivity|].
  cbn [sort_items]. now apply insert_item_ascending.
Qed.

Lemma sort_items_of_ascending l :
  ascending (map fst l) = true -> sort_items l = l.
Proof.
  induction l as [|x l IH]; [reflexivity|].
  intros H. cbn [sort_items]. destruct l as [|y l]; [reflexivity|].
  cbn [map] in H. rewrite ascending_cons in H.
  apply andb_prop in H as [Hxy Hl]. rewrite (IH Hl).
  cbn [insert_item]. now rewrite Hxy.
Qed.

(** Sorting what is sorted changes nothing. *)
Lemma sort_items_idem l : sort_items (sort_items l) = sort_items l.
Proof. apply sort_items_of_ascending, sort_items_ascending. Qed.

End SortedItems.

Lemma insert_item_map {A B : Type} (f : A -> B) x l :
  insert_item (fst x, f (snd x)) (map (fun kv => (fst kv, f (snd kv))) l)
  = map (fun kv => (fst kv, f (snd kv))) (insert_item x l).
Proof.
  induction l as [|y l IH]; [reflexivity|].
  cbn [map insert_item fst].
  destruct (String.leb (fst x) (fst y)); [reflexivity|].
  cbn [map]. now rewrite IH.
Qed.

Lemma sort_items_map {A B : Type} (f : A -> B) l :
  sort_items (map (fun kv => (fst kv, f (snd kv))) l)
  = map (fun kv => (fst kv, f (snd kv))) (sort_items l).
Proof.
  induction l as [|x l IH]; [reflexivity|].
  cbn [map sort_items]. now rewrite IH, insert_item_map.
Qed.

(** The sort is stable, so the first item of a key stays the first. *)
Lemma lookup_insert_item k x d : lookup k (insert_item x d) = lookup k (x :: d).
Proof.
  destruct x as [kx vx]. induction d as [|[ky vy] d IH]; [reflexivity|].
  cbn [insert_item fst].
  destruct (String.leb kx ky) eqn:Exy; [reflexivity|].
  cbn [lookup] in IH |- *. rewrite IH.
  destruct (String.eqb_spec ky k) as [->|Hy]; [|reflexivity].
  destruct (String.eqb_spec kx k) as [->|Hx]; [|reflexivity].
  now rewrite string_leb_refl in Exy.
Qed.

Lemma lookup_sort_items k d : lookup k (sort_items d) = lookup k d.
Proof.
  induction d as [|[kx vx] d IH]; [reflexivity|].
  cbn [sort_items]. rewrite lookup_insert_item. cbn [lookup].
  now rewrite IH.
Qed.

Lemma lookup_map k (f : json -> json) d :
  lookup k (map (fun kv => (fst kv, f (snd kv))) d) = option_map f (lookup k d).
Proof.
  induction d as [|[kx vx] d IH]; [reflexivity|].
  cbn [map lookup fst snd]. destruct (String.eqb kx k); [reflexivity|exact IH].
Qed.

Lemma jsonify_dict d :
  App.jsonify (JDict d)
  = JDict (sort_items (map (fun kv => (fst kv, App.jsonify (snd kv))) d)).
Proof. reflexivity. Qed.

(** A subscript reads from the value sent what it reads from the value
    held, sent in its turn. *)
Lemma getitem_jsonify j k :
  getitem (App.jsonify j) k =
  match getitem j k with
  | Ok v => Ok (App.jsonify v)
  | Raise e => Raise e
  | Unmodelled => Unmodelled
  end.
Proof.
  destruct j as [|b|n|r|s|l|d]; try reflexivity.
  rewrite jsonify_dict. unfold getitem.
  rewrite lookup_sort_items, lookup_map.
  now destruct (lookup k d).
Qed.

(** [dumps] sorts the keys itself, so it writes the same text for both. *)
Lemma dumps_jsonify j : dumps (App.jsonify j) = dumps j.
Proof.
  induction j as [| | | | |l IH|d IH] using json_induction; try reflexivity.
  - change (App.jsonify (JList l)) with (JList (map App.jsonify l)).
    cbn [dumps]. do 3 f_equal. rewrite map_map.
    apply map_ext_in. intros x Hx. rewrite Forall_forall in IH. now apply IH.
  - rewrite jsonify_dict, !dumps_dict. do 4 f_equal. unfold dumped.
    rewrite <- (sort_items_map dumps), sort_items_idem. f_equal.
    rewrite map_map. apply map_ext_in. intros kv Hkv. cbn [fst snd].
    rewrite Forall_forall in IH. now rewrite (IH _ Hkv).
Qed.

Lemma hash_jsonify block : hash (App.jsonify block) = hash block.
Proof. unfold hash. now rewrite dumps_jsonify. Qed.

Lemma is_str_jsonify v h : is_str (App.jsonify v) h = is_str v h.
Proof. now destruct v. Qed.

(** A chain whose proofs read the same after [jsonify] fares with
    [valid_chain] as the chain it was sent from. *)
Lemma valid_chain_from_jsonify prev rest :
  wire_proof prev ->
  Forall wire_proof rest ->
  valid_chain_from (App.jsonify prev) (map App.jsonify rest)
  = valid_chain_from prev rest.
Proof.
  revert prev. induction rest as [|block rest IH]; intros prev Hprev Hrest;
    [reflexivity|].
  inversion Hrest as [|? ? Hblock Hrest']; subst.
  cbn [map]. rewrite !valid_chain_from_cons, !getitem_jsonify, hash_jsonify.
  destruct (getitem block "previous_hash") as [ph| |]; try reflexivity.
  cbn [bind]. rewrite is_str_jsonify.
  destruct (negb (is_str ph (hash prev))); [reflexivity|].
  destruct (getitem prev "proof") as [lp| |] eqn:Hlp; try reflexivity.
  cbn [bind].
  destruct (getitem block "proof") as [p| |] eqn:Hp; try reflexivity.
  cbn [bind]. rewrite (Hprev _ Hlp), (Hblock _ Hp).
  destruct (negb (valid_proof lp p)); [reflexivity|].
  now apply IH.
Qed.

Lemma valid_chain_jsonify chain :
  Forall wire_proof chain ->
  valid_chain (map App.jsonify chain) = valid_chain chain.
Proof.
  destruct chain as [|first rest]; [reflexivity|].
  intros H. inversion H; subst. cbn [map valid_chain].
  now apply valid_chain_from_jsonify.
Qed.

(** The node mines with integer proofs. *)
Lemma run_wire_proofs o self self' :
  own_work o = true ->
  run o self = Some self' ->
  Forall wire_proof (chain self) ->
  Forall wire_proof (chain self').
Proof.
  destruct o as [sender recipient amount|now proof previous_hash|netloc
                |replies|fuel node_identifier now]; cbn [run own_work];
    try discriminate; intros _.
  - intros [= <-] H. exact H.
  - intros [= <-] H. now destruct netloc.
  - destruct (mine fuel node_identifier now self) as [[out s]|] eqn:E;
      [|discriminate].
    intros [= <-] H.
    apply mine_state in E as [->|[lb [lp [p [b1 [_ [_ [_ [Hc ->]]]]]]]]];
      [assumption|].
    rewrite sealed_chain, Hc. apply Forall_app. split; [assumption|].
    constructor; [|constructor]. intros proof [= <-]. reflexivity.
Qed.

Lemma run_all_wire_proofs ops : forall self self',
  forallb own_work ops = true ->
  run_all ops self = Some self' ->
  Forall wire_proof (chain self) ->
  Forall wire_proof (chain self').
Proof.
  induction ops as [|o ops IH]; intros self self'.
  - now intros _ [= <-].
  - cbn [forallb run_all]. intros Hl. apply andb_prop in Hl as [Ho Hops].
    destruct (run o self) as [s|] eqn:E; [|discriminate].
    intros Hrun H. apply (IH s self' Hops Hrun).
    now apply (run_wire_proofs o self).
Qed.

(** X11.  A node passes its own validator, and so does what it serves.  In
    every state reached from initialization by operations that seal by the
    rule ([mine], [new_transaction], [register_node], [resolve_conflicts],
    and [new_block] with a proof that answers the proof of the last block
    and with a previous hash that is left out, falsy or the hash of the last
    block), [valid_chain] returns [True] on the chain of the node.  What a
    peer reads from the [/chain] endpoint is that chain written by
    [jsonify], with its true length; [valid_chain] returns [True] on it
    too when every proof reads the same after [jsonify], and so in every
    state in which the node has mined all its blocks itself. *)
Theorem own_chain_is_valid now ops self :
  run_all ops (init now) = Some self ->
  by_rule ops (init now) = true ->
  valid_chain (chain self) = Ok true /\
  (Forall wire_proof (chain self) \/ forallb own_work ops = true ->
   exists served,
     App.jsonified (full_chain self)
     = Response 200 (Some {| body_length := Z.of_nat (List.length served);
                             body_chain := served |}) /\
     valid_chain served = Ok true).
Proof.
  intros Hrun Hrule.
  assert (valid_chain (chain self) = Ok true) as Hvalid.
  { apply valid_chain_true. split.
    - apply (run_all_nonempty ops (init now) self Hrun). discriminate.
    - now apply (run_all_invariant ops (init now) self). }
  split; [exact Hvalid|]. intros Hwire.
  assert (Forall wire_proof (chain self)) as H.
  { destruct Hwire as [H|Hown]; [exact H|].
    apply (run_all_wire_proofs ops (init now) self Hown Hrun).
    constructor; [|constructor]. intros proof [= <-]. reflexivity. }
  exists (map App.jsonify (chain self)). split.
  - unfold full_chain, App.jsonified. cbn [body_length body_chain].
    now rewrite length_map.
  - now rewrite (valid_chain_jsonify _ H).
Qed.

Lemma own_chain_is_valid_witness :
  exists self,
    run_all Scenario.session (init "1700000000.25") = Some self /\
    by_rule Scenario.session (init "1700000000.25") = true /\
    valid_chain (chain self) = Ok true /\
    valid_chain (map App.jsonify (chain self)) = Ok true.
Proof.
  let r := eval vm_compute in
             (run_all Scenario.session (init "1700000000.25")) in
  match r with
  | Some ?self =>
      exists self;
      assert (run_all Scenario.session (init "1700000000.25") = Some self)
        as Hrun by (vm_compute; reflexivity)
  end.
  assert (by_rule Scenario.session (init "1700000000.25") = true) as Hrule
    by (vm_compute; reflexivity).
  destruct (own_chain_is_valid _ _ _ Hrun Hrule) as [Hvalid Hserved].
  split; [exact Hrun|]. split; [exact Hrule|]. split; [exact Hvalid|].
  destruct Hserved as [served [Hreply Hv]].
  - left. cbn [chain].
    repeat constructor; intros proof H; vm_compute in H;
      injection H as <-; reflexivity.
  - injection Hreply as _ <-. exact Hv.
Defined.

(** ** The handlers *)

(** X12.  A submitted object that lacks one of the fields [sender],
    [recipient] and [amount] is refused with the text [Missing values] and
    the status 400, and the node is left as it was. *)
Theorem transaction_without_field_is_refused d self :
  lookup "sender" d = None \/ lookup "recipient" d = None \/
  lookup "amount" d = None ->
  App.new_transaction (JDict d) self
  = (App.Sent (App.Text "Missing values") 400, self).
Proof.
  unfold App.new_transaction, App.all_in, App.contains_key, bind.
  destruct (lookup "sender" d); [|reflexivity].
  destruct (lookup "recipient" d); [|reflexivity].
  destruct (lookup "amount" d); [|reflexivity].
  intros [H|[H|H]]; discriminate.
Qed.

Lemma transaction_without_field_is_refused_witness :
  lookup "amount" [ ("sender", JStr "A"); ("recipient", JStr "B") ] = None /\
  App.new_transaction (JDict [ ("sender", JStr "A"); ("recipient", JStr "B") ])
    Scenario.node1
  = (App.Sent (App.Text "Missing values") 400, Scenario.node1).
Proof.
  assert (lookup "amount" [ ("sender", JStr "A"); ("recipient", JStr "B") ]
          = None) as H by reflexivity.
  split; [exact H|].
  apply transaction_without_field_is_refused. right. right. exact H.
Defined.

(** X13.  A submitted object that has the three fields is queued: the
    transaction made of exactly these three values (other fields of the
    object are dropped) goes to the end of the buffer, whether or not the
    call then succeeds.  Where the last block carries the length of the
    chain as its index, the answer has status 201 and names the block after
    the last one. *)
Theorem transaction_with_fields_is_queued d sender recipient amount self :
  lookup "sender" d = Some sender ->
  lookup "recipient" d = Some recipient ->
  lookup "amount" d = Some amount ->
  snd (App.new_transaction (JDict d) self)
  = App.queued (App.transaction sender recipient amount) self /\
  (index_is_length (chain self) ->
   fst (App.new_transaction (JDict d) self)
   = App.Sent
       (App.Json
          (JDict [ ("message",
                    JStr ("Transaction will be added to Block "
                          ++ str_of_int (Z.of_nat (List.length (chain self)) + 1))) ]))
       201).
Proof.
  intros Hs Hr Ha.
  unfold App.new_transaction, App.all_in, App.contains_key, getitem, bind.
  rewrite Hs, Hr, Ha. unfold new_transaction. cbn [fst snd].
  split; [reflexivity|].
  intros [last_block [Hlast Hindex]]. cbn [chain]. rewrite Hlast.
  unfold getitem in Hindex. unfold bind, getitem. 
  destruct last_block; try discriminate.
  destruct (lookup "index" d0); [|discriminate].
  injection Hindex as ->. reflexivity.
Qed.

Lemma transaction_with_fields_is_queued_witness :
  index_is_length (chain Scenario.node1) /\
  App.new_transaction
    (JDict [ ("sender", JStr "A"); ("note", JStr "rent");
             ("recipient", JStr "B"); ("amount", JInt 10) ])
    Scenario.node1
  = (App.Sent
       (App.Json
          (JDict [ ("message", JStr "Transaction will be added to Block 2") ]))
       201,
     App.queued Scenario.alice_pays_bob Scenario.node1).
Proof.
  assert (index_is_length (chain Scenario.node1)) as Hindex
    by apply index_is_length_init.
  split; [exact Hindex|].
  destruct (transaction_with_fields_is_queued
              [ ("sender", JStr "A"); ("note", JStr "rent");
                ("recipient", JStr "B"); ("amount", JInt 10) ]
              (JStr "A") (JStr "B") (JInt 10) Scenario.node1
              eq_refl eq_refl eq_refl) as [Hstate Hanswer].
  specialize (Hanswer Hindex).
  rewrite (surjective_pairing (App.new_transaction _ Scenario.node1)).
  rewrite Hstate, Hanswer. reflexivity.
Defined.

(** X14.  Only a JSON object can queue a transaction: for a body that is
    not an object (a list, a string, a number, [null]) the handler never
    answers 201 and never changes the node, even when the three names occur
    in it. *)
Theorem transaction_body_must_be_object values self :
  (forall d, values <> JDict d) ->
  snd (App.new_transaction values self) = self /\
  forall b, fst (App.new_transaction values self) <> App.Sent b 201.
Proof.
  intros Hnot. unfold App.new_transaction.
  destruct values as [|b|n|r|s|l|d]; try (split; [reflexivity|discriminate]).
  - destruct (App.all_in _ (JStr s)) as [[|]|e|];
      split; try reflexivity; discriminate.
  - destruct (App.all_in _ (JList l)) as [[|]|e|];
      split; try reflexivity; discriminate.
  - now contradiction (Hnot d).
Qed.

Lemma transaction_body_must_be_object_witness :
  (forall d, JList [JStr "sender"; JStr "recipient"; JStr "amount"] <> JDict d) /\
  App.new_transaction (JList [JStr "sender"; JStr "recipient"; JStr "amount"])
    Scenario.node1
  = (App.Uncaught TypeError, Scenario.node1) /\
  snd (App.new_transaction
         (JList [JStr "sender"; JStr "recipient"; JStr "amount"])
         Scenario.node1) = Scenario.node1.
Proof.
  assert (forall d, JList [JStr "sender"; JStr "recipient"; JStr "amount"]
                    <> JDict d) as Hnot by discriminate.
  split; [exact Hnot|]. split; [reflexivity|].
  exact (proj1 (transaction_body_must_be_object _ Scenario.node1 Hnot)).
Defined.

Lemma register_node_keeps netloc self :
  chain (snd (register_node netloc self)) = chain self /\
  current_transactions (snd (register_node netloc self))
  = current_transactions self /\
  incl (nodes self) (nodes (snd (register_node netloc self))).
Proof.
  destruct netloc as [n|]; cbn [register_node snd chain current_transactions nodes].
  - repeat apply conj; try reflexivity.
    destruct (in_dec string_dec n (nodes self)); [apply incl_refl|].
    apply incl_appl, incl_refl.
  - repeat apply conj; try reflexivity. apply incl_refl.
Qed.

Lemma register_all_keeps netloc l : forall self,
  chain (snd (App.register_all netloc l self)) = chain self /\
  current_transactions (snd (App.register_all netloc l self))
  = current_transactions self /\
  incl (nodes self) (nodes (snd (App.register_all netloc l self))).
Proof.
  induction l as [|node l IH]; intros self; cbn [App.register_all].
  - repeat apply conj; try reflexivity. apply incl_refl.
  - destruct node; try (repeat apply conj; try reflexivity; apply incl_refl).
    destruct (register_node_keeps (netloc s) self) as [Hc [Ht Hn]].
    destruct (register_node (netloc s) self) as [[u|e|] b1];
      cbn [snd] in Hc, Ht, Hn |- *; try (repeat apply conj; assumption).
    destruct (IH b1) as [Hc' [Ht' Hn']].
    repeat apply conj; try congruence.
    eapply incl_tran; eassumption.
Qed.

(** X15.  Registration touches nothing but the set of peers: whatever the
    body of the request, and whether the handler answers or an exception
    ends it, the chain and the pending transactions are as before, and every
    peer that was registered still is. *)
Theorem register_nodes_only_adds_peers netloc listed values self :
  chain (snd (App.register_nodes netloc listed values self)) = chain self /\
  current_transactions (snd (App.register_nodes netloc listed values self))
  = current_transactions self /\
  incl (nodes self) (nodes (snd (App.register_nodes netloc listed values self))).
Proof.
  assert (chain self = chain self /\
          current_transactions self = current_transactions self /\
          incl (nodes self) (nodes self)) as Hsame
    by (repeat apply conj; try reflexivity; apply incl_refl).
  unfold App.register_nodes.
  destruct values as [|b|n|r|s|l|d]; try exact Hsame.
  destruct (lookup "nodes" d) as [node_list|]; [|exact Hsame].
  destruct node_list as [|b|n|r|s|l|d']; cbn [App.elements];
    try exact Hsame;
    match goal with
    | |- context [App.register_all netloc ?visited self] =>
        pose proof (register_all_keeps netloc visited self) as H;
        destruct (App.register_all netloc visited self) as [[failed|] b'];
        exact H
    end.
Qed.

(** X16.  A registration request whose object has no [nodes] field, or has
    [null] there, is refused with status 400 and the node is left as it
    was. *)
Theorem register_without_nodes_is_refused netloc listed d self :
  lookup "nodes" d = None \/ lookup "nodes" d = Some JNull ->
  App.register_nodes netloc listed (JDict d) self
  = (App.Sent (App.Text "Error: Please supply a valid list of nodes") 400,
     self).
Proof.
  unfold App.register_nodes. intros [->| ->]; reflexivity.
Qed.

Lemma register_without_nodes_is_refused_witness :
  lookup "nodes" [ ("node", JStr "http://192.168.0.5:5000") ] = None /\
  App.register_nodes Cases.netloc (@rev string)
    (JDict [ ("node", JStr "http://192.168.0.5:5000") ]) Scenario.node1
  = (App.Sent (App.Text "Error: Please supply a valid list of nodes") 400,
     Scenario.node1).
Proof.
  assert (lookup "nodes" [ ("node", JStr "http://192.168.0.5:5000") ] = None)
    as H by reflexivity.
  split; [exact H|].
  apply register_without_nodes_is_refused. left. exact H.
Defined.

Lemma register_all_parsed netloc addresses : forall self,
  Forall (fun address => netloc address <> None) addresses ->
  App.register_all netloc (map JStr addresses) self
  = (None, registered netloc addresses self).
Proof.
  induction addresses as [|a addresses IH]; intros self Hall; [reflexivity|].
  inversion Hall as [|? ? Ha Hrest]; subst.
  cbn [map App.register_all]. unfold registered. cbn [fold_left].
  destruct (netloc a) as [n|] eqn:E; [|congruence].
  cbn [register_node]. apply (IH _ Hrest).
Qed.

Lemma registered_holds netloc addresses : forall self n,
  (In n (nodes self) \/
   exists address, In address addresses /\ netloc address = Some n) ->
  In n (nodes (registered netloc addresses self)).
Proof.
  induction addresses as [|a addresses IH]; intros self n.
  - intros [H|[address [[] _]]]. exact H.
  - intros H. unfold registered. cbn [fold_left]. apply IH.
    destruct H as [H|[address [[<-|Hin] Hn]]].
    + left. now apply (proj2 (proj2 (register_node_keeps (netloc a) self))).
    + left. rewrite Hn. cbn [register_node snd nodes].
      destruct (in_dec string_dec n (nodes self)); [assumption|].
      apply in_or_app. right. now left.
    + right. now exists address.
Qed.

(** The set of peers holds no peer twice. *)
Lemma registered_NoDup netloc addresses : forall self,
  NoDup (nodes self) -> NoDup (nodes (registered netloc addresses self)).
Proof.
  induction addresses as [|a addresses IH]; intros self Hnd; [exact Hnd|].
  unfold registered. cbn [fold_left]. apply IH.
  destruct (netloc a) as [n|]; cbn [register_node snd nodes]; [|exact Hnd].
  destruct (in_dec string_dec n (nodes self)) as [|Hnew]; [exact Hnd|].
  apply (Permutation_NoDup (Permutation_cons_append (nodes self) n)).
  now constructor.
Qed.

(** X17.  A list of addresses that all parse is registered whole.  The
    handler answers 201 and lists the peers of the node after the call, in
    the order in which Python iterates the set, whichever that is: each
    peer once, those registered before the call and the network location of
    each address of the request among them. *)
Theorem register_nodes_registers_all netloc listed d addresses self :
  (forall peers, Permutation (listed peers) peers) ->
  NoDup (nodes self) ->
  lookup "nodes" d = Some (JList (map JStr addresses)) ->
  Forall (fun address => netloc address <> None) addresses ->
  exists total_nodes,
    App.register_nodes netloc listed (JDict d) self
    = (App.Sent
         (App.Json
            (JDict [ ("message", JStr "New nodes have been added");
                     ("total_nodes", JList (map JStr total_nodes)) ]))
         201,
       registered netloc addresses self) /\
    Permutation total_nodes (nodes (registered netloc addresses self)) /\
    NoDup total_nodes /\
    (forall n, In n (nodes self) -> In n total_nodes) /\
    (forall address n,
       In address addresses -> netloc address = Some n -> In n total_nodes).
Proof.
  intros Hlisted Hnd Hnodes Hall.
  exists (listed (nodes (registered netloc addresses self))).
  pose proof (Hlisted (nodes (registered netloc addresses self))) as Hperm.
  repeat apply conj.
  - unfold App.register_nodes. rewrite Hnodes. cbn [App.elements].
    now rewrite (register_all_parsed netloc addresses self Hall).
  - exact Hperm.
  - apply (Permutation_NoDup (Permutation_sym Hperm)).
    now apply registered_NoDup.
  - intros n Hin. apply (Permutation_in _ (Permutation_sym Hperm)).
    apply registered_holds. now left.
  - intros address n Hin Hn. apply (Permutation_in _ (Permutation_sym Hperm)).
    apply registered_holds. right. now exists address.
Qed.

Lemma register_nodes_registers_all_witness :
  exists total_nodes,
    App.register_nodes Cases.netloc (@rev string)
      (JDict [ ("nodes",
                JList (map JStr [ "http://192.168.0.5:5000";
                                  "http://10.0.0.7:5001";
                                  "http://192.168.0.5:5000" ])) ])
      Scenario.node1
    = (App.Sent
         (App.Json
            (JDict [ ("message", JStr "New nodes have been added");
                     ("total_nodes", JList (map JStr total_nodes)) ]))
         201,
       {| chain := chain Scenario.node1;
          current_transactions := [];
          nodes := ["192.168.0.5:5000"; "10.0.0.7:5001"] |}) /\
    Permutation total_nodes ["192.168.0.5:5000"; "10.0.0.7:5001"] /\
    In "10.0.0.7:5001" total_nodes.
Proof.
  assert (Forall (fun address => Cases.netloc address <> None)
            [ "http://192.168.0.5:5000"; "http://10.0.0.7:5001";
              "http://192.168.0.5:5000" ]) as Hall
    by (repeat constructor; discriminate).
  destruct (register_nodes_registers_all Cases.netloc (@rev string)
              [ ("nodes",
                 JList (map JStr [ "http://192.168.0.5:5000";
                                   "http://10.0.0.7:5001";
                                   "http://192.168.0.5:5000" ])) ]
              [ "http://192.168.0.5:5000"; "http://10.0.0.7:5001";
                "http://192.168.0.5:5000" ]
              Scenario.node1
              (fun peers => Permutation_sym (Permutation_rev peers))
              (NoDup_nil string) eq_refl Hall)
    as [total_nodes [Hsent [Hperm [_ [_ Hnew]]]]].
  exists total_nodes. split; [exact Hsent|]. split; [exact Hperm|].
  apply (Hnew "http://10.0.0.7:5001"); [right; left; reflexivity|reflexivity].
Defined.

(** X18.  Registration is not all or nothing.  When an address of the list
    does not parse, the exception of [urlparse] ends the handler there: the
    addresses before it are registered and stay so, those after it are not
    looked at, and no response is built. *)
Theorem register_nodes_stops_at_bad_address netloc listed d pre bad rest self :
  lookup "nodes" d = Some (JList (map JStr (pre ++ bad :: rest))) ->
  Forall (fun address => netloc address <> None) pre ->
  netloc bad = None ->
  App.register_nodes netloc listed (JDict d) self
  = (App.Uncaught ValueError, registered netloc pre self).
Proof.
  intros Hnodes Hpre Hbad. unfold App.register_nodes.
  rewrite Hnodes. cbn [App.elements].
  assert (forall l self,
            Forall (fun address => netloc address <> None) l ->
            App.register_all netloc (map JStr (l ++ bad :: rest)) self
            = (Some (App.Uncaught ValueError), registered netloc l self))
    as Hloop.
  { induction l as [|a l IH]; intros s0 Hl.
    - cbn [app map App.register_all]. rewrite Hbad. reflexivity.
    - inversion Hl as [|? ? Ha Hrest]; subst.
      cbn [app map App.register_all]. unfold registered. cbn [fold_left].
      destruct (netloc a) as [n|] eqn:E; [|congruence].
      cbn [register_node]. apply (IH _ Hrest). }
  now rewrite (Hloop pre self Hpre).
Qed.

Lemma register_nodes_stops_at_bad_address_witness :
  Cases.netloc "http://[" = None /\
  App.register_nodes Cases.netloc (@rev string)
    (JDict [ ("nodes",
              JList (map JStr ([ "http://192.168.0.5:5000" ] ++
                               "http://[" :: [ "http://10.0.0.7:5001" ]))) ])
    Scenario.node1
  = (App.Uncaught ValueError, Scenario.node1_with_peer).
Proof.
  assert (Cases.netloc "http://[" = None) as Hbad by reflexivity.
  assert (Forall (fun address => Cases.netloc address <> None)
            [ "http://192.168.0.5:5000" ]) as Hpre
    by (repeat constructor; discriminate).
  split; [exact Hbad|].
  rewrite (register_nodes_stops_at_bad_address Cases.netloc (@rev string)
             [ ("nodes",
                JList (map JStr ([ "http://192.168.0.5:5000" ] ++
                                 "http://[" :: [ "http://10.0.0.7:5001" ]))) ]
             [ "http://192.168.0.5:5000" ] "http://["
             [ "http://10.0.0.7:5001" ]
             Scenario.node1 eq_refl Hpre Hbad).
  reflexivity.
Defined.

(** X19.  Consensus between two nodes.  The node asks its only peer, and
    reads from the [/chain] endpoint of the peer the chain of the peer as
    [jsonify] writes it.  When [valid_chain] accepts the chain the peer
    holds and every proof in it reads the same after [jsonify], the node
    answers 200 either way: if the peer has more blocks, the node takes the
    chain it read, keeps its own pending transactions and peers, and answers
    that its chain was replaced, with the new chain; otherwise it keeps
    everything and answers that its chain is authoritative.  The condition
    on the proofs is needed: a peer can hold a longer chain that
    [valid_chain] accepts and that the node yet does not take, because a
    proof that is a dict is read back with its keys in another order. *)
Theorem consensus_with_one_peer :
  (forall self peer_node,
     valid_chain (chain peer_node) = Ok true ->
     Forall wire_proof (chain peer_node) ->
     App.consensus [App.jsonified (full_chain peer_node)] self =
     if (List.length (chain self) <? List.length (chain peer_node))%nat
     then (App.Sent
             (App.Json
                (JDict [ ("message", JStr "Our chain was replaced");
                         ("new_chain",
                          JList (map App.jsonify (chain peer_node))) ]))
             200,
           replaced (map App.jsonify (chain peer_node)) self)
     else (App.Sent
             (App.Json
                (JDict [ ("message", JStr "Our chain is authoritative");
                         ("chain", JList (chain self)) ]))
             200,
           self)) /\
  (exists self peer_node,
     valid_chain (chain peer_node) = Ok true /\
     (List.length (chain self) < List.length (chain peer_node))%nat /\
     App.consensus [App.jsonified (full_chain peer_node)] self =
     (App.Sent
        (App.Json
           (JDict [ ("message", JStr "Our chain is authoritative");
                    ("chain", JList (chain self)) ]))
        200,
      self)).
Proof.
  split.
  - intros self peer_node Hv Hwire.
    unfold App.consensus, resolve_conflicts, full_chain, App.jsonified.
    rewrite resolve_loop_cons. cbn [Z.eqb Pos.eqb body_length body_chain].
    destruct (Nat.ltb_spec (List.length (chain self))
                (List.length (chain peer_node))) as [Hlt|Hge].
    + destruct (Z.gtb_spec (Z.of_nat (List.length (chain peer_node)))
                  (Z.of_nat (List.length (chain self)))) as [_|Hle]; [|lia].
      rewrite (valid_chain_jsonify _ Hwire), Hv. cbn [bind resolve_loop].
      destruct (chain peer_node) as [|first rest] eqn:E; [discriminate|].
      reflexivity.
    + destruct (Z.gtb_spec (Z.of_nat (List.length (chain peer_node)))
                  (Z.of_nat (List.length (chain self)))) as [Hgt|_]; [lia|].
      reflexivity.
  - exists Scenario.node1_with_peer, Cases.dict_node.
    split; [vm_compute; reflexivity|]. split; [vm_compute; lia|].
    vm_compute. reflexivity.
Qed.

Lemma consensus_with_one_peer_witness :
  valid_chain (chain Scenario.node2) = Ok true /\
  Forall wire_proof (chain Scenario.node2) /\
  App.consensus [App.jsonified (full_chain Scenario.node2)]
    Scenario.node1_with_peer
  = (App.Sent
       (App.Json
          (JDict [ ("message", JStr "Our chain was replaced");
                   ("new_chain",
                    JList (map App.jsonify (chain Scenario.node2))) ]))
       200,
     replaced (map App.jsonify (chain Scenario.node2))
       Scenario.node1_with_peer).
Proof.
  assert (valid_chain (chain Scenario.node2) = Ok true) as Hv
    by (vm_compute; reflexivity).
  assert (Forall wire_proof (chain Scenario.node2)) as Hwire
    by (repeat constructor; intros proof H; vm_compute in H;
        injection H as <-; reflexivity).
  split; [exact Hv|]. split; [exact Hwire|].
  rewrite (proj1 consensus_with_one_peer Scenario.node1_with_peer
             Scenario.node2 Hv Hwire).
  reflexivity.
Defined.

(** ** The shape of a digest *)

Lemma length_append_string (a b : string) :
  String.length (a ++ b) = (String.length a + String.length b)%nat.
Proof. induction a as [|c a IH]; simpl; [reflexivity|now rewrite IH]. Qed.

Lemma length_string_of_list (l : list ascii) :
  String.length (string_of_list_ascii l) = List.length l.
Proof. induction l as [|c l IH]; simpl; [reflexivity|now rewrite IH]. Qed.

Lemma chars_append (a b : string) :
  list_ascii_of_string (a ++ b)
  = list_ascii_of_string a ++ list_ascii_of_string b.
Proof. induction a as [|c a IH]; simpl; [reflexivity|now rewrite IH]. Qed.

Lemma hex_digit_char (d : Z) : 0 <= d < 16 -> hex_char (SHA256.hex_digit d).
Proof.
  intros H.
  assert (d = 0 \/ d = 1 \/ d = 2 \/ d = 3 \/ d = 4 \/ d = 5 \/ d = 6 \/ d = 7 \/
          d = 8 \/ d = 9 \/ d = 10 \/ d = 11 \/ d = 12 \/ d = 13 \/ d = 14 \/
          d = 15) as Hd by lia.
  unfold hex_char.
  repeat (destruct Hd as [->|Hd]; [vm_compute; tauto|]).
  subst d. vm_compute. tauto.
Qed.

Lemma hex_shape (n : nat) (x : Z) :
  String.length (SHA256.hex n x) = n /\
  Forall hex_char (list_ascii_of_string (SHA256.hex n x)).
Proof.
  unfold SHA256.hex. split.
  - now rewrite length_string_of_list, length_map, length_rev, length_seq.
  - rewrite list_ascii_of_string_of_list_ascii. apply Forall_forall.
    intros c Hc. apply in_map_iff in Hc as [i [<- _]].
    apply hex_digit_char. change 0xf with (Z.ones 4).
    rewrite Z.land_ones by lia. apply Z.mod_pos_bound. reflexivity.
Qed.

Lemma hexdigest_shape (msg : list Z) :
  String.length (SHA256.hexdigest msg) = 64%nat /\
  Forall hex_char (list_ascii_of_string (SHA256.hexdigest msg)).
Proof.
  with_strategy transparent [SHA256.hexdigest] unfold SHA256.hexdigest.
  generalize (SHA256.digest msg). intros d. cbv zeta. split.
  - rewrite !length_append_string, !(proj1 (hex_shape 8 _)). reflexivity.
  - rewrite !chars_append.
    do 7 (apply Forall_app; split; [apply (proj2 (hex_shape 8 _))|]).
    apply (proj2 (hex_shape 8 _)).
Qed.

(** X20.  The digest of a block, which [new_block] records as the previous
    hash of the next one, is a text of 64 characters, each a digit or one of
    the letters [a] to [f]: in particular it is never empty, so a block
    sealed by [mine] always carries the hash of its predecessor and never
    falls back to another link. *)
Theorem hash_is_64_hex_digits (block : json) :
  String.length (hash block) = 64%nat /\
  Forall hex_char (list_ascii_of_string (hash block)) /\
  truthy (JStr (hash block)) = true.
Proof.
  destruct (hexdigest_shape (encode (dumps block))) as [Hlen Hchars].
  split; [exact Hlen|]. split; [exact Hchars|].
  cbn [truthy]. fold (hash block) in Hlen.
  destruct (String.eqb_spec (hash block) EmptyString) as [E|_];
    [|reflexivity].
  rewrite E in Hlen. discriminate Hlen.
Qed.
